(** * Spotify liked-songs downloader: a shallow embedding of [donwloader.py]

    The development follows the source file top to bottom: Python strings
    and the two pattern languages the script relies on ([re] character
    classes for [sanitize_filename], [fnmatch] patterns for [Path.glob]),
    the collaborators (Spotify session, yt-dlp, the file system, the
    console) as an environment of oracles, the methods of
    [SpotifyDownloader], the thread pool of [download_all_songs] and
    [main].  Theorems come after all definitions. *)

From Stdlib Require Import String Ascii DecimalString.
From Stdlib Require Import List NArith ZArith Bool Arith Lia Permutation.
Import ListNotations.

Set Implicit Arguments.

(* ===================================================================== *)
(** ** Python strings *)
(* ===================================================================== *)

(** A Python [str] is a sequence of Unicode code points. *)
Definition char := N.
Definition str := list char.

(** [u "abc"] is the [str] of an ASCII literal of the source. *)
Definition u (s : string) : str := map N_of_ascii (list_ascii_of_string s).
Arguments u s%_string.

Fixpoint str_eqb (a b : str) : bool :=
  match a, b with
  | [], [] => true
  | c :: a', d :: b' => N.eqb c d && str_eqb a' b'
  | _, _ => false
  end.

(** [s.startswith(p)]. *)
Fixpoint startswith (p s : str) : bool :=
  match p, s with
  | [], _ => true
  | c :: p', d :: s' => N.eqb c d && startswith p' s'
  | _ :: _, [] => false
  end.

(** [needle in hay] on strings. *)
Fixpoint contains (needle hay : str) : bool :=
  startswith needle hay ||
  match hay with
  | [] => false
  | _ :: t => contains needle t
  end.

(** [sep.join(parts)]. *)
Fixpoint join (sep : str) (parts : list str) : str :=
  match parts with
  | [] => []
  | [p] => p
  | p :: rest => p ++ sep ++ join sep rest
  end.

(** [c * n] for a one-character string, as in ["-" * 50]. *)
Definition repeat_char (c : string) (n : nat) : str := concat (repeat (u c) n).
Arguments repeat_char c%_string n.

(** [str(n)] for integers. *)
Definition str_of_nat (n : nat) : str := u (NilZero.string_of_uint (Nat.to_uint n)).
Definition str_of_Z (z : Z) : str := u (NilZero.string_of_int (Z.to_int z)).

(** [s.lower()], on the ASCII letters; the script only compares the result
    with ["y"], and no other code point lowercases to [y]. *)
Definition lower_char (c : char) : char :=
  if (65 <=? c)%N && (c <=? 90)%N then (c + 32)%N else c.
Definition lower (s : str) : str := map lower_char s.

(** Code points of the non-ASCII literals of the source. *)
Definition CHECK_MARK : str := [10003%N].               (* U+2713 *)
Definition CROSS_MARK : str := [10060%N].               (* U+274C *)
Definition NEXT_TRACK : str := [9197%N; 65039%N].       (* U+23ED U+FE0F *)
Definition FILE_FOLDER : str := [128193%N].             (* U+1F4C1 *)
Definition DQUOTE : char := 34%N.
Definition BACKSLASH : char := 92%N.

(* ===================================================================== *)
(** ** The fragment of [re] used by [sanitize_filename] *)
(* ===================================================================== *)

Module Re.

(** A compiled character set [[...]]. *)
Inductive class_item :=
| CChar (c : char)
| CRange (lo hi : char).

Record char_class := { negated : bool; items : list class_item }.

Definition is_alnum (c : char) : bool :=
  ((48 <=? c) && (c <=? 57) || (65 <=? c) && (c <=? 90) ||
   (97 <=? c) && (c <=? 122) || (c =? 95))%N.

(** The body of a set, up to the closing bracket, which must end the
    pattern: a backslash makes the next punctuation character literal
    (escapes of letters and digits are character categories and are not
    part of this fragment); [lo-hi] is a range. *)
Fixpoint parse_set (first : bool) (p : str) : option (list class_item) :=
  match p with
  | [] => None
  | c :: rest =>
      if (c =? 93)%N && negb first then
        match rest with [] => Some [] | _ :: _ => None end
      else if (c =? 92)%N then
        match rest with
        | e :: rest' =>
            if is_alnum e then None
            else option_map (cons (CChar e)) (parse_set false rest')
        | [] => None
        end
      else
        match rest with
        | d :: hi :: rest' =>
            if (d =? 45)%N && negb (hi =? 93)%N then
              if (hi =? 92)%N then None
              else option_map (cons (CRange c hi)) (parse_set false rest')
            else option_map (cons (CChar c)) (parse_set false rest)
        | _ => option_map (cons (CChar c)) (parse_set false rest)
        end
  end.

(** [re.compile] on a pattern that is one character set. *)
Definition compile (p : str) : option char_class :=
  match p with
  | 91%N :: 94%N :: body =>
      option_map (fun l => {| negated := true; items := l |}) (parse_set true body)
  | 91%N :: body =>
      option_map (fun l => {| negated := false; items := l |}) (parse_set true body)
  | _ => None
  end.

Definition item_match (c : char) (i : class_item) : bool :=
  match i with
  | CChar d => (c =? d)%N
  | CRange lo hi => ((lo <=? c) && (c <=? hi))%N
  end.

Definition class_match (cls : char_class) (c : char) : bool :=
  xorb (negated cls) (existsb (item_match c) (items cls)).

(** [re.sub(pattern, repl, s)] for a one-set pattern: scanning left to
    right, every character in the set is replaced by [repl]. *)
Fixpoint sub (cls : char_class) (repl s : str) : str :=
  match s with
  | [] => []
  | c :: s' =>
      if class_match cls c then repl ++ sub cls repl s'
      else c :: sub cls repl s'
  end.

End Re.

(** The pattern of line 101, character by character: an opening bracket,
    then less-than, greater-than, colon, double quote, slash, two
    backslashes (the literal is a raw string, so both are in the pattern),
    bar, question mark, star, and the closing bracket. *)
Definition SANITIZE_PATTERN : str := u "[<>:" ++ [DQUOTE] ++ u "/\\|?*]".

(** [sanitize_filename(self, filename)]. *)
Definition sanitize_filename (filename : str) : str :=
  match Re.compile SANITIZE_PATTERN with
  | Some cls => Re.sub cls [] filename
  | None => filename
  end.

(** The reserved characters as the specification lists them: less-than,
    greater-than, colon, double quote, slash, backslash, bar, question
    mark, star. *)
Definition spec_reserved : list char :=
  [60; 62; 58; 34; 47; 92; 124; 63; 42]%N.

Definition is_reserved (c : char) : bool := existsb (N.eqb c) spec_reserved.

(* ===================================================================== *)
(** ** [fnmatch] patterns, as [Path.glob] matches directory entries *)
(* ===================================================================== *)

Module Fnmatch.

(** What [fnmatch.translate] makes of a pattern: a star, a question
    mark, a bracketed set (negated by a leading exclamation mark), or a
    literal character. *)
Inductive tok :=
| TStar
| TAny
| TLit (c : char)
| TSet (neg : bool) (body : str).

Fixpoint find_close (p : str) : option nat :=
  match p with
  | [] => None
  | c :: rest => if (c =? 93)%N then Some 0 else option_map S (find_close rest)
  end.

(** The index [j] of the bracket closing a set whose opening bracket was
    just read: an exclamation mark and then a closing bracket directly
    after the opening one do not close it. *)
Definition set_end (p : str) : option nat :=
  let '(j1, p1) := match p with 33%N :: r => (1, r) | _ => (0, p) end in
  let '(j2, p2) := match p1 with 93%N :: r => (S j1, r) | _ => (j1, p1) end in
  option_map (Nat.add j2) (find_close p2).

(** The loop of [translate]; [skip] counts the characters of a set still
    to be passed over.  An opening bracket that is never closed is a
    literal. *)
Fixpoint translate_from (skip : nat) (pat : str) : list tok :=
  match pat with
  | [] => []
  | c :: rest =>
      match skip with
      | S k => translate_from k rest
      | O =>
          if (c =? 42)%N then TStar :: translate_from 0 rest
          else if (c =? 63)%N then TAny :: translate_from 0 rest
          else if (c =? 91)%N then
            match set_end rest with
            | None => TLit c :: translate_from 0 rest
            | Some j =>
                match firstn j rest with
                | 33%N :: body => TSet true body
                | stuff => TSet false stuff
                end :: translate_from (S j) rest
            end
          else TLit c :: translate_from 0 rest
      end
  end.

Definition translate (pat : str) : list tok := translate_from 0 pat.

(** Membership in the body of a set: [lo-hi] is a range when the hyphen
    is neither first nor last, an empty range holds nothing, every other
    character stands for itself. *)
Fixpoint in_set (body : str) (c : char) : bool :=
  match body with
  | [] => false
  | lo :: rest =>
      match rest with
      | 45%N :: hi :: rest' => ((lo <=? c) && (c <=? hi))%N || in_set rest' c
      | _ => (c =? lo)%N || in_set rest c
      end
  end.

Definition tok_match (t : tok) (c : char) : bool :=
  match t with
  | TStar | TAny => true
  | TLit d => (c =? d)%N
  | TSet neg body => xorb neg (in_set body c)
  end.

(** A full match of the name against the translated pattern (the
    regular expression is anchored at both ends, case-sensitive). *)
Fixpoint tmatch (ts : list tok) (s : str) : bool :=
  match ts with
  | [] => match s with [] => true | _ :: _ => false end
  | TStar :: ts' =>
      (fix star (s : str) : bool :=
         tmatch ts' s || match s with [] => false | _ :: s' => star s' end) s
  | t :: ts' =>
      match s with
      | [] => false
      | c :: s' => tok_match t c && tmatch ts' s'
      end
  end.

Definition fnmatchcase (name pat : str) : bool := tmatch (translate pat) name.

End Fnmatch.

(** [list(directory.glob(pattern))] for a one-component pattern, on the
    names of the entries of the directory. *)
Definition glob (entries : list str) (pattern : str) : list str :=
  filter (fun name => Fnmatch.fnmatchcase name pattern) entries.

(** The existence check of lines 109-110: is
    [list(self.download_folder.glob(f"{identifier}*"))] non-empty? *)
Definition existence_check (entries : list str) (identifier : str) : bool :=
  match glob entries (identifier ++ u "*") with
  | [] => false
  | _ :: _ => true
  end.

(* ===================================================================== *)
(** ** [json.dump(obj, f, indent=2, ensure_ascii=False)] *)
(* ===================================================================== *)

Module Json.

(** The values the script stores in a song dictionary. *)
Inductive value :=
| JStr (s : str)
| JInt (z : Z).

(** A dictionary with string keys, in insertion order. *)
Definition dict := list (string * value).

Definition hex_digit (n : N) : char :=
  if (n <? 10)%N then (48 + n)%N else (87 + n)%N.

(** The replacement of one character inside a string literal: the
    backslash, the double quote and the control characters below U+0020
    are escaped, everything else is written as it is. *)
Definition escape_char (c : char) : str :=
  if (c =? 34)%N then [92; 34]%N
  else if (c =? 92)%N then [92; 92]%N
  else if (c =? 10)%N then [92; 110]%N
  else if (c =? 13)%N then [92; 114]%N
  else if (c =? 9)%N then [92; 116]%N
  else if (c =? 8)%N then [92; 98]%N
  else if (c =? 12)%N then [92; 102]%N
  else if (c <? 32)%N then [92; 117; 48; 48; hex_digit (c / 16); hex_digit (c mod 16)]%N
  else [c].

Definition encode_str (s : str) : str := [34%N] ++ flat_map escape_char s ++ [34%N].

Definition encode_value (v : value) : str :=
  match v with
  | JStr s => encode_str s
  | JInt z => str_of_Z z
  end.

(** A newline followed by the indentation of nesting level [level]. *)
Definition newline_indent (level : nat) : str := [10%N] ++ repeat 32%N (2 * level).

Definition encode_member (m : string * value) : str :=
  encode_str (u (fst m)) ++ u ": " ++ encode_value (snd m).

Definition encode_dict (level : nat) (d : dict) : str :=
  match d with
  | [] => u "{}"
  | _ :: _ =>
      u "{" ++ newline_indent (S level)
        ++ join (u "," ++ newline_indent (S level)) (map encode_member d)
        ++ newline_indent level ++ u "}"
  end.

(** The text written for a list of dictionaries. *)
Definition dumps (l : list dict) : str :=
  match l with
  | [] => u "[]"
  | _ :: _ =>
      u "[" ++ newline_indent 1
        ++ join (u "," ++ newline_indent 1) (map (encode_dict 1) l)
        ++ newline_indent 0 ++ u "]"
  end.

(** [json.dump] writes the text to the file piece by piece, each
    string literal as one piece, and the file, opened with
    [encoding='utf-8'], encodes each piece when it is written.  The
    code points U+D800 to U+DFFF (surrogates, which [json.loads] leaves
    in a string for an unpaired escape) have no UTF-8 encoding: the
    write of the first piece that holds one raises
    [UnicodeEncodeError]. *)
Definition is_surrogate (c : char) : bool := (55296 <=? c)%N && (c <=? 57343)%N.

(** The string literals among the pieces, in the order they are
    written. *)
Definition literals_of_member (m : string * value) : list str :=
  encode_str (u (fst m)) ::
  match snd m with
  | JStr s => [encode_str s]
  | JInt _ => []
  end.

Definition literals (l : list dict) : list str :=
  flat_map (flat_map literals_of_member) l.

(** The position of the first surrogate of a piece and the length of
    the run of surrogates that starts there. *)
Fixpoint run_length (s : str) : nat :=
  match s with
  | c :: s' => if is_surrogate c then S (run_length s') else 0
  | [] => 0
  end.

Fixpoint first_surrogate (s : str) : option (nat * char * nat) :=
  match s with
  | [] => None
  | c :: s' =>
      if is_surrogate c then Some (0, c, S (run_length s'))
      else match first_surrogate s' with
           | Some (i, x, n) => Some (S i, x, n)
           | None => None
           end
  end.

Definition hex4 (c : char) : str :=
  [ hex_digit (c / 4096); hex_digit ((c / 256) mod 16);
    hex_digit ((c / 16) mod 16); hex_digit (c mod 16) ]%N.

(** [str(e)] for the error of the encoder. *)
Definition encode_error_message (i : nat) (c : char) (n : nat) : str :=
  match n with
  | 1 => u "'utf-8' codec can't encode character '\u" ++ hex4 c
           ++ u "' in position " ++ str_of_nat i ++ u ": surrogates not allowed"
  | _ => u "'utf-8' codec can't encode characters in position " ++ str_of_nat i
           ++ u "-" ++ str_of_nat (i + n - 1) ++ u ": surrogates not allowed"
  end.

Fixpoint first_error (pieces : list str) : option str :=
  match pieces with
  | [] => None
  | p :: rest =>
      match first_surrogate p with
      | Some (i, c, n) => Some (encode_error_message i c n)
      | None => first_error rest
      end
  end.

(** The text of the error, if any, that writing the text for [l] to a
    UTF-8 file meets. *)
Definition encode_error (l : list dict) : option str := first_error (literals l).

End Json.

(* ===================================================================== *)
(** ** Data of the script *)
(* ===================================================================== *)

(** An exception: its class name and [str(e)].  The exceptions of the
    model are errors, of classes derived from [Exception]: those the
    handlers of lines 136 and 230 ([except Exception]) catch.
    [KeyboardInterrupt] and [SystemExit], which these handlers let
    through, are not part of the model: no run is interrupted. *)
Inductive exn := Exn (class_name : string) (msg : str).

Definition str_of_exn (e : exn) : str := let 'Exn _ m := e in m.

(** A call returns or raises. *)
Inductive result (A : Type) : Type :=
| Ok (a : A)
| Raise (e : exn).
Arguments Ok {A} a.
Arguments Raise {A} e.

(** One element of [results['items']], with the parts the script reads. *)
Record item := {
  track_name : str;
  track_artists : list str;
  track_album_name : str;
  track_duration_ms : Z;
  track_popularity : Z
}.

(** The dictionary [song_info] built at lines 84-90. *)
Record song_info := {
  name : str;
  artist : str;
  album : str;
  duration_ms : Z;
  popularity : Z
}.

(** Its items, in the order the keys are inserted. *)
Definition song_items (s : song_info) : Json.dict :=
  [ ("name"%string, Json.JStr (name s));
    ("artist"%string, Json.JStr (artist s));
    ("album"%string, Json.JStr (album s));
    ("duration_ms"%string, Json.JInt (duration_ms s));
    ("popularity"%string, Json.JInt (popularity s)) ].

(** What [extract_info] returns: a dictionary that may have a list under
    ['entries'], each entry with its ['webpage_url']. *)
Record entry := { webpage_url : str }.
Record info := { entries : option (list entry) }.

(** The yt-dlp options that reach the collaborator. *)
Record ydl_options := {
  format : str;
  outtmpl : str;
  preferredcodec : str;
  preferredquality : str
}.

Inductive spotify := Spotify (client_id client_secret redirect_uri scope : str).

(** What the program does to the outside, in order. *)
Inductive event :=
| EPrint (line : str)
| EMkdir (path : str)
| ESavedTracks (limit offset : nat)
| EGlob (directory pattern : str)
| EExtractInfo (search_query : str)
| EDownload (url : str) (opts : ydl_options)
| EOpen (path : str)
| EWrite (path : str) (encoding : string) (content : str)
| EInput (prompt : str)
| ESleep (milliseconds : nat).

(** The state the program shares with the outside: the names of the
    entries of the download folder and the trace of events so far. *)
Record world := { fs : list str; trace : list event }.

Definition add_event (e : event) (w : world) : world :=
  {| fs := fs w; trace := trace w ++ [e] |}.

(** Creating an entry of the download folder. *)
Definition create (entry_name : str) (entries : list str) : list str :=
  if existsb (str_eqb entry_name) entries then entries else entries ++ [entry_name].

Definition add_file (entry_name : str) (w : world) : world :=
  {| fs := create entry_name (fs w); trace := trace w |}.

(** The collaborators, as oracles: each call returns or raises.
    - [mkdir]: [Path.mkdir(exist_ok=True)] on the download folder;
    - [oauth]: building [SpotifyOAuth] and [spotipy.Spotify];
    - [current_user_saved_tracks limit offset]: one page of saved tracks;
    - [scandir_error pattern]: the error, if any, that listing the
      download folder meets while [Path.glob] runs for [pattern] (up to
      CPython 3.11 [Path.glob] swallows [PermissionError] only and lets
      any other [OSError] of the scan through);
    - [extract_info query]: the yt-dlp search, without download;
    - [download url opts]: fetch and transcode; on success the name of
      the entry the call leaves in the download folder.  The script does
      not choose this name: it passes the output template [outtmpl opts]
      and yt-dlp names the file by expanding it (the file appears when
      the call returns, and a call that raises leaves the folder as it
      was: the temporary files of yt-dlp are not part of the model);
    - [open_w path]: [open(path, 'w', encoding='utf-8')];
    - [write_error path text]: the error, if any, of the file system
      while [text] is written to the open file and the file is closed;
    - [input prompt]: the line the user types. *)
Record env := {
  cwd : str;
  mkdir : str -> result unit;
  oauth : str -> str -> str -> str -> result spotify;
  current_user_saved_tracks : nat -> nat -> result (list item);
  scandir_error : str -> option exn;
  extract_info : str -> result info;
  download : str -> ydl_options -> result str;
  open_w : str -> result unit;
  write_error : str -> str -> option exn;
  input : str -> result str
}.

(* ===================================================================== *)
(** ** Sequential code: state, exceptions and fuel *)
(* ===================================================================== *)

(** A computation of the main thread transforms the world and returns,
    raises, or ([None]) runs out of the fuel given to the [while True]
    loop of [get_liked_songs]. *)
Definition M (A : Type) : Type := world -> option (result A) * world.

Definition ret {A} (a : A) : M A := fun w => (Some (Ok a), w).

Definition bind {A B} (m : M A) (f : A -> M B) : M B :=
  fun w =>
    match m w with
    | (Some (Ok a), w') => f a w'
    | (Some (Raise e), w') => (Some (Raise e), w')
    | (None, w') => (None, w')
    end.

Definition raise {A} (e : exn) : M A := fun w => (Some (Raise e), w).

Definition out_of_fuel {A} : M A := fun w => (None, w).

(** [try: body except Exception as e: handler(e)]. *)
Definition try_except {A} (body : M A) (handler : exn -> M A) : M A :=
  fun w =>
    match body w with
    | (Some (Raise e), w') => handler e w'
    | r => r
    end.

Definition emit (e : event) : M unit := fun w => (Some (Ok tt), add_event e w).

(** A call to a collaborator: the event, then its answer. *)
Definition call {A} (e : event) (r : result A) : M A := fun w => (Some r, add_event e w).

Definition print (line : str) : M unit := emit (EPrint line).

Declare Scope main_scope.
Delimit Scope main_scope with main.
Notation "x <- c1 ;; c2" := (bind c1 (fun x => c2))
  (at level 61, c1 at next level, right associativity) : main_scope.
Notation "c1 ;; c2" := (bind c1 (fun _ => c2))
  (at level 61, right associativity) : main_scope.

(* ===================================================================== *)
(** ** Worker code: atomic actions that other workers interleave with *)
(* ===================================================================== *)

(** A program of a worker thread: it has returned, or its next atomic
    action updates the world and continues according to the world the
    action saw. *)
Inductive prog (A : Type) : Type :=
| Ret (a : A)
| Act (upd : world -> world) (k : world -> prog A).
Arguments Ret {A} a.
Arguments Act {A} upd k.

(** Running a program to its end without interference. *)
Fixpoint run {A} (p : prog A) (w : world) : A * world :=
  match p with
  | Ret a => (a, w)
  | Act upd k => run (k w) (upd w)
  end.

Fixpoint prog_bind {A B} (p : prog A) (f : A -> prog B) : prog B :=
  match p with
  | Ret a => f a
  | Act upd k => Act upd (fun w => prog_bind (k w) f)
  end.

(** A task is a program that returns or raises. *)
Definition task (A : Type) : Type := prog (result A).

Definition tret {A} (a : A) : task A := Ret (Ok a).

Definition tbind {A B} (p : task A) (f : A -> task B) : task B :=
  prog_bind p (fun r => match r with Ok a => f a | Raise e => Ret (Raise e) end).

Definition ttry {A} (body : task A) (handler : exn -> task A) : task A :=
  prog_bind body (fun r => match r with Ok a => Ret (Ok a) | Raise e => handler e end).

Declare Scope task_scope.
Delimit Scope task_scope with task.
Notation "x <- c1 ;; c2" := (tbind c1 (fun x => c2))
  (at level 61, c1 at next level, right associativity) : task_scope.
Notation "c1 ;; c2" := (tbind c1 (fun _ => c2))
  (at level 61, right associativity) : task_scope.

(* ===================================================================== *)
(** ** [concurrent.futures.ThreadPoolExecutor] *)
(* ===================================================================== *)

Module Pool.
Section Pool.

(** [T]: what a future is mapped to ([future_to_song]); [R]: what a
    future holds when done. *)
Variables T R : Type.

(** Submitted work not yet taken by a worker, the program each busy
    worker is in, and the futures that are done, in completion order. *)
Record pool := {
  queue : list (T * prog R);
  running : list (T * prog R);
  done : list (T * R)
}.

(** All tasks are submitted before any result is read: the first
    [max_workers] start at once, the others wait in submission order. *)
Definition submit_all (max_workers : nat) (tasks : list (T * prog R)) : pool :=
  {| queue := skipn max_workers tasks;
     running := firstn max_workers tasks;
     done := [] |}.

Fixpoint replace_nth {A} (n : nat) (x : A) (l : list A) : list A :=
  match l, n with
  | [], _ => []
  | _ :: l', O => x :: l'
  | y :: l', S n' => y :: replace_nth n' x l'
  end.

Fixpoint remove_nth {A} (n : nat) (l : list A) : list A :=
  match l, n with
  | [], _ => []
  | _ :: l', O => l'
  | y :: l', S n' => y :: remove_nth n' l'
  end.

(** Worker [i] moves: it performs the next atomic action of its task,
    or, its task having returned, completes the future and takes the
    next task of the queue (leaving the pool when there is none). *)
Definition worker_step (i : nat) (ps : pool) (w : world) : pool * world :=
  match nth_error (running ps) i with
  | None => (ps, w)
  | Some (t, Act upd k) =>
      ({| queue := queue ps;
          running := replace_nth i (t, k w) (running ps);
          done := done ps |}, upd w)
  | Some (t, Ret r) =>
      match queue ps with
      | [] =>
          ({| queue := [];
              running := remove_nth i (running ps);
              done := done ps ++ [(t, r)] |}, w)
      | next :: q =>
          ({| queue := q;
              running := replace_nth i next (running ps);
              done := done ps ++ [(t, r)] |}, w)
      end
  end.

(** An interleaving: which worker moves at each instant. *)
Fixpoint run_schedule (sched : list nat) (ps : pool) (w : world) : pool * world :=
  match sched with
  | [] => (ps, w)
  | i :: sched' =>
      let '(ps', w') := worker_step i ps w in
      run_schedule sched' ps' w'
  end.

(** Running what is left one task after the other. *)
Fixpoint finish (tasks : list (T * prog R)) (w : world) : list (T * R) * world :=
  match tasks with
  | [] => ([], w)
  | (t, p) :: rest =>
      let '(r, w1) := run p w in
      let '(rs, w2) := finish rest w1 in
      ((t, r) :: rs, w2)
  end.

(** [shutdown(wait=True)]: every task that is running or queued runs
    to its end. *)
Definition shutdown (ps : pool) (w : world) : list (T * R) * world :=
  let '(rs, w') := finish (running ps ++ queue ps) w in
  (done ps ++ rs, w').

(** [as_completed]: the futures are yielded as they complete, but those
    that are already done when the loop asks for them come in no
    specified order; [order] says, at each turn, which of the remaining
    futures comes next. *)
Fixpoint as_completed {A} (order : list nat) (futures : list A) : list A :=
  match order with
  | [] => futures
  | i :: order' =>
      match nth_error futures i with
      | Some f => f :: as_completed order' (remove_nth i futures)
      | None => as_completed order' futures
      end
  end.

(** Submitting [tasks] to [max_workers] workers and waiting for all of
    them, under the interleaving [sched]: the futures in completion
    order, and the world they leave. *)
Definition execute (max_workers : nat) (sched : list nat)
    (tasks : list (T * prog R)) (w : world) : list (T * R) * world :=
  let '(ps, w') := run_schedule sched (submit_all max_workers tasks) w in
  shutdown ps w'.

End Pool.
End Pool.

(* ===================================================================== *)
(** ** [class SpotifyDownloader] *)
(* ===================================================================== *)

Record SpotifyDownloader := {
  client_id : str;
  client_secret : str;
  redirect_uri : str;
  sp : option spotify;
  download_folder : str;
  ydl_opts : ydl_options
}.

(** [folder / child] and [str] of it, for a child without separator
    (POSIX paths). *)
Definition path_join (folder child : str) : str := folder ++ u "/" ++ child.

Definition DEFAULT_REDIRECT_URI : str := u "http://127.0.0.1:3000/callback".

(** What the run does not decide: the interleaving of the workers and the
    order in which [as_completed] yields the futures. *)
Record schedule := {
  interleaving : list nat;
  yield_order : list nat
}.

Section Program.

Variable E : env.

(** The object [__init__] builds. *)
Definition new_downloader (client_id client_secret redirect_uri : str)
  : SpotifyDownloader :=
  let download_folder := u "Downloaded_Music" in
  {| client_id := client_id;
     client_secret := client_secret;
     redirect_uri := redirect_uri;
     sp := None;
     download_folder := download_folder;
     ydl_opts := {| format := u "bestaudio/best";
                    outtmpl := path_join download_folder (u "%(title)s.%(ext)s");
                    preferredcodec := u "mp3";
                    preferredquality := u "192" |} |}.

(** [__init__]. *)
Definition init (client_id client_secret redirect_uri : str) : M SpotifyDownloader :=
  (let self := new_downloader client_id client_secret redirect_uri in
   _ <- call (EMkdir (download_folder self)) (mkdir E (download_folder self)) ;;
   ret self)%main.

Definition set_sp (self : SpotifyDownloader) (s : spotify) : SpotifyDownloader :=
  {| client_id := client_id self;
     client_secret := client_secret self;
     redirect_uri := redirect_uri self;
     sp := Some s;
     download_folder := download_folder self;
     ydl_opts := ydl_opts self |}.

(** [authenticate_spotify]: returns the object with [self.sp] set. *)
Definition authenticate_spotify (self : SpotifyDownloader) : M SpotifyDownloader :=
  (let scope := u "user-library-read" in
   s <- (fun w => (Some (oauth E (client_id self) (client_secret self)
                                  (redirect_uri self) scope), w)) ;;
   _ <- print (CHECK_MARK ++ u " Successfully authenticated with Spotify") ;;
   ret (set_sp self s))%main.

(** Lines 84-90. *)
Definition song_of_item (it : item) : song_info :=
  {| name := track_name it;
     artist := join (u ", ") (track_artists it);
     album := track_album_name it;
     duration_ms := track_duration_ms it;
     popularity := track_popularity it |}.

(** The [while True] loop of lines 76-94. *)
Fixpoint fetch_loop (fuel : nat) (limit offset : nat) (liked_songs : list song_info)
  : M (list song_info) :=
  match fuel with
  | O => out_of_fuel
  | S fuel' =>
      (items <- call (ESavedTracks limit offset)
                     (current_user_saved_tracks E limit offset) ;;
       match items with
       | [] => ret liked_songs
       | _ :: _ =>
           let liked_songs := liked_songs ++ map song_of_item items in
           let offset := offset + limit in
           _ <- print (u "Fetched " ++ str_of_nat (length liked_songs)
                         ++ u " songs so far...") ;;
           fetch_loop fuel' limit offset liked_songs
       end)%main
  end.

(** [get_liked_songs]. *)
Definition get_liked_songs (fuel : nat) (self : SpotifyDownloader) : M (list song_info) :=
  match sp self with
  | None => raise (Exn "Exception" (u "Not authenticated with Spotify"))
  | Some _ =>
      (_ <- print (u "Fetching liked songs from Spotify...") ;;
       liked_songs <- fetch_loop fuel 50 0 [] ;;
       _ <- print (CHECK_MARK ++ u " Found " ++ str_of_nat (length liked_songs)
                     ++ u " liked songs") ;;
       ret liked_songs)%main
  end.

(** The two strings of lines 105-106. *)
Definition query_of (song : song_info) : str := artist song ++ u " - " ++ name song.

Definition safe_filename_of (song : song_info) : str :=
  sanitize_filename (artist song ++ u " - " ++ name song).

Definition skipped_message (query : str) : str :=
  NEXT_TRACK ++ u "  Skipped (already exists): " ++ query.
Definition downloaded_message (query : str) : str :=
  CHECK_MARK ++ u " Downloaded: " ++ query.
Definition not_found_message (query : str) : str :=
  CROSS_MARK ++ u " Not found: " ++ query.
Definition error_message (query : str) (e : exn) : str :=
  CROSS_MARK ++ u " Error downloading " ++ query ++ u ": " ++ str_of_exn e.

(** Line 109: listing the download folder; an error of the listing is
    raised here. *)
Definition glob_folder (self : SpotifyDownloader) (pattern : str) : task (list str) :=
  Act (add_event (EGlob (download_folder self) pattern))
      (fun w => Ret match scandir_error E pattern with
                    | Some e => Raise e
                    | None => Ok (glob (fs w) pattern)
                    end).

(** Line 119. *)
Definition ydl_extract_info (search_query : str) : task info :=
  Act (add_event (EExtractInfo search_query))
      (fun _ => Ret (extract_info E search_query)).

(** Line 130: on success the file yt-dlp has named from the output
    template of [opts] is in the folder. *)
Definition ydl_download (url : str) (opts : ydl_options) : task unit :=
  Act (fun w =>
         let w' := add_event (EDownload url opts) w in
         match download E url opts with
         | Ok file_name => add_file file_name w'
         | Raise _ => w'
         end)
      (fun _ => Ret match download E url opts with
                    | Ok _ => Ok tt
                    | Raise e => Raise e
                    end).

Definition with_outtmpl (opts : ydl_options) (t : str) : ydl_options :=
  {| format := format opts;
     outtmpl := t;
     preferredcodec := preferredcodec opts;
     preferredquality := preferredquality opts |}.

(** [search_and_download_song]. *)
Definition search_and_download_song (self : SpotifyDownloader) (song_info : song_info)
  : task str :=
  (let query := query_of song_info in
   let safe_filename := safe_filename_of song_info in
   potential_files <- glob_folder self (safe_filename ++ u "*") ;;
   match potential_files with
   | _ :: _ => tret (skipped_message query)
   | [] =>
       ttry
         (let search_query := u "ytsearch1:" ++ query in
          info <- ydl_extract_info search_query ;;
          match entries info with
          | Some (video_info :: _) =>
              let custom_opts :=
                with_outtmpl (ydl_opts self)
                  (path_join (download_folder self) (safe_filename ++ u ".%(ext)s")) in
              _ <- ydl_download (webpage_url video_info) custom_opts ;;
              tret (downloaded_message query)
          | _ => tret (not_found_message query)
          end)
         (fun e => tret (error_message query e))
   end)%task.

(** The dictionary [future_to_song] of lines 151-154, as the list of
    the submitted tasks with the song of each. *)
Definition submitted (self : SpotifyDownloader) (songs : list song_info)
  : list (song_info * task str) :=
  map (fun song => (song, search_and_download_song self song)) songs.

(** The three counters of lines 145-147. *)
Record counters := {
  successful_downloads : nat;
  failed_downloads : nat;
  skipped_downloads : nat
}.

Definition total (c : counters) : nat :=
  successful_downloads c + skipped_downloads c + failed_downloads c.

(** Lines 161-166. *)
Definition count (c : counters) (result : str) : counters :=
  if contains (u "Downloaded") result then
    {| successful_downloads := successful_downloads c + 1;
       failed_downloads := failed_downloads c;
       skipped_downloads := skipped_downloads c |}
  else if contains (u "Skipped") result then
    {| successful_downloads := successful_downloads c;
       failed_downloads := failed_downloads c;
       skipped_downloads := skipped_downloads c + 1 |}
  else
    {| successful_downloads := successful_downloads c;
       failed_downloads := failed_downloads c + 1;
       skipped_downloads := skipped_downloads c |}.

(** The loop of lines 157-169 over the completed futures:
    [future.result()] returns what the task returned or raises what it
    raised. *)
Fixpoint process_completed (completed : list (song_info * result str)) (c : counters)
  : M counters :=
  match completed with
  | [] => ret c
  | (_, future) :: rest =>
      (result <- (fun w => (Some future, w)) ;;
       _ <- print result ;;
       let c := count c result in
       _ <- emit (ESleep 500) ;;
       process_completed rest c)%main
  end.

Definition absolute (folder : str) : str := path_join (cwd E) folder.

(** The summary of lines 171-176. *)
Definition summary_lines (self : SpotifyDownloader) (c : counters) : list str :=
  [ repeat_char "-" 50;
    u "Download Summary:";
    CHECK_MARK ++ u " Successfully downloaded: " ++ str_of_nat (successful_downloads c);
    NEXT_TRACK ++ u "  Skipped (already existed): " ++ str_of_nat (skipped_downloads c);
    CROSS_MARK ++ u " Failed: " ++ str_of_nat (failed_downloads c);
    FILE_FOLDER ++ u " Files saved to: " ++ absolute (download_folder self) ].

Fixpoint print_all (lines : list str) : M unit :=
  match lines with
  | [] => ret tt
  | l :: rest => (_ <- print l ;; print_all rest)%main
  end.

(** [download_all_songs]: the executor runs the tasks under the
    interleaving of [sched]; leaving the [with] block waits for every
    task, also when [future.result()] has raised.  The loop over the
    completed futures only prints, counts and sleeps, so it is placed
    after the workers; the counters it ends with are returned (the
    method itself returns nothing and prints them). *)
Definition download_all_songs (sched : schedule) (self : SpotifyDownloader)
    (songs : list song_info) (max_workers : nat) : M counters :=
  (_ <- print ([10%N] ++ u "Starting download of " ++ str_of_nat (length songs)
                 ++ u " songs...") ;;
   _ <- print (u "Download folder: " ++ absolute (download_folder self)) ;;
   _ <- print (repeat_char "-" 50) ;;
   match max_workers with
   | O => raise (Exn "ValueError" (u "max_workers must be greater than 0"))
   | S _ =>
       completed <-
         (fun w =>
            let '(completed, w') :=
              Pool.execute max_workers (interleaving sched) (submitted self songs) w in
            (Some (Ok completed), w')) ;;
       c <- process_completed (Pool.as_completed (yield_order sched) completed)
              {| successful_downloads := 0; failed_downloads := 0;
                 skipped_downloads := 0 |} ;;
       _ <- print_all (summary_lines self c) ;;
       ret c
   end)%main.

(** Line 181: [open] creates the file, or empties the one that is
    there. *)
Definition open_for_writing (path entry_name : str) : M unit :=
  fun w =>
    match open_w E path with
    | Ok _ => (Some (Ok tt), add_file entry_name (add_event (EOpen path) w))
    | Raise e => (Some (Raise e), add_event (EOpen path) w)
    end.

(** Line 182 and the end of the [with] block: [json.dump] writes the
    text piece by piece and the file is closed.  [EWrite] stands for
    the file closed with the whole text.  When a piece cannot be
    encoded, or the file system fails, the exception leaves the block
    and the file keeps only what was written before (the model does
    not record that part; when both failures are possible the one of
    the encoder is taken). *)
Definition json_dump (path : str) (obj : list Json.dict) : M unit :=
  fun w =>
    match Json.encode_error obj with
    | Some msg => (Some (Raise (Exn "UnicodeEncodeError" msg)), w)
    | None =>
        match write_error E path (Json.dumps obj) with
        | Some e => (Some (Raise e), w)
        | None => (Some (Ok tt), add_event (EWrite path "utf-8" (Json.dumps obj)) w)
        end
    end.

(** [save_playlist_info]. *)
Definition save_playlist_info (self : SpotifyDownloader) (songs : list song_info) : M unit :=
  (let playlist_file := path_join (download_folder self) (u "playlist_info.json") in
   _ <- open_for_writing playlist_file (u "playlist_info.json") ;;
   _ <- json_dump playlist_file (map song_items songs) ;;
   print (CHECK_MARK ++ u " Playlist info saved to: " ++ playlist_file))%main.

Definition PLACEHOLDER_CLIENT_ID : str := u "your_spotify_client_id_here".

Definition setup_instructions : list str :=
  [ CROSS_MARK ++ u " Please set up your Spotify API credentials first!";
    [10%N] ++ u "To get your credentials:";
    u "1. Go to https://developer.spotify.com/dashboard";
    u "2. Create a new app";
    u "3. Copy your Client ID and Client Secret";
    u "4. Add 'http://localhost:8888/callback' as a redirect URI";
    u "5. Replace the credentials in this script" ].

(** Lines 214-228 of [main]: what follows the fetch. *)
Definition main_after_fetch (sched : schedule) (downloader : SpotifyDownloader)
    (liked_songs : list song_info) : M unit :=
  (match liked_songs with
   | [] => print (u "No liked songs found!")
   | _ :: _ =>
       _ <- save_playlist_info downloader liked_songs ;;
       let prompt := [10%N] ++ u "Found " ++ str_of_nat (length liked_songs)
                       ++ u " songs. Download all? (y/n): " in
       response <- call (EInput prompt) (input E prompt) ;;
       if negb (str_eqb (lower response) (u "y")) then
         print (u "Download cancelled.")
       else
         _ <- download_all_songs sched downloader liked_songs 3 ;;
         ret tt
   end)%main.

(** Line 231: the handler of the [try] of [main]. *)
Definition main_handler (e : exn) : M unit :=
  print (CROSS_MARK ++ u " An error occurred: " ++ str_of_exn e).

(** [main], with the two credentials the user is told to write into the
    script as parameters. *)
Definition main (CLIENT_ID CLIENT_SECRET : str) (fuel : nat) (sched : schedule) : M unit :=
  (_ <- print (u "Spotify Liked Songs Downloader") ;;
   _ <- print (repeat_char "=" 40) ;;
   if str_eqb CLIENT_ID PLACEHOLDER_CLIENT_ID then
     print_all setup_instructions
   else
     try_except
       (downloader <- init CLIENT_ID CLIENT_SECRET DEFAULT_REDIRECT_URI ;;
        downloader <- authenticate_spotify downloader ;;
        liked_songs <- get_liked_songs fuel downloader ;;
        main_after_fetch sched downloader liked_songs)
       main_handler)%main.

(** The exit status of the script: [main()] is its last statement, so
    the interpreter exits with 0 when [main] returns and with 1 when an
    exception leaves it. *)
Definition exit_status (r : option (result unit)) : option Z :=
  match r with
  | Some (Ok _) => Some 0%Z
  | Some (Raise _) => Some 1%Z
  | None => None
  end.

End Program.

(* ===================================================================== *)
(** ** Notions used in the statements *)
(* ===================================================================== *)

(** A string without the three characters that start a wildcard. *)
Definition plain_char (c : char) : bool :=
  negb ((c =? 42) || (c =? 63) || (c =? 91))%N.
Definition plain (s : str) : bool := forallb plain_char s.

(** The four outcomes of a task for [song], as the messages of lines
    111, 132, 134 and 137. *)
Inductive outcome_of (song : song_info) : result str -> Prop :=
| outcome_skipped : outcome_of song (Ok (skipped_message (query_of song)))
| outcome_downloaded : outcome_of song (Ok (downloaded_message (query_of song)))
| outcome_not_found : outcome_of song (Ok (not_found_message (query_of song)))
| outcome_error (e : exn) : outcome_of song (Ok (error_message (query_of song) e)).

(** The pattern of the existence check for [song]. *)
Definition pattern_of (song : song_info) : str := safe_filename_of song ++ u "*".

(** The query of the search of line 116. *)
Definition search_query_of (song : song_info) : str := u "ytsearch1:" ++ query_of song.

(** The options of the download of line 130. *)
Definition custom_opts_of (self : SpotifyDownloader) (song : song_info) : ydl_options :=
  with_outtmpl (ydl_opts self)
    (path_join (download_folder self) (safe_filename_of song ++ u ".%(ext)s")).

(** The existence check for [song] found nothing, in some world that
    [le] allows after [w0]. *)
Definition missed (E : env) (le : world -> world -> Prop) (song : song_info)
    (w0 : world) : Prop :=
  exists w1, le w0 w1 /\ scandir_error E (pattern_of song) = None
             /\ glob (fs w1) (pattern_of song) = [].

(** The identifier of the song holds no opening bracket. *)
Definition bracket_free (song : song_info) : Prop := ~ In 91%N (safe_filename_of song).

(** The download names the file of [song] by its identifier: whatever
    it leaves in the folder for the output template of line 126 has a
    name that starts with the identifier.  (The identifier is spliced
    into the template unescaped; yt-dlp reads a percent sign in it as
    part of the template language, so that this can fail for an
    identifier with a percent sign.) *)
Definition keeps_identifier (E : env) (self : SpotifyDownloader) (song : song_info) : Prop :=
  forall url file_name,
    download E url (custom_opts_of self song) = Ok file_name ->
    startswith (safe_filename_of song) file_name = true.

(** Some listing of the download folder fails for these songs. *)
Definition listing_error (E : env) (songs : list song_info) (e : exn) : Prop :=
  exists song, In song songs /\ scandir_error E (pattern_of song) = Some e.

(** Every completed future holds the downloaded (skipped) message of its
    song. *)
Definition all_downloaded (completed : list (song_info * result str)) : Prop :=
  Forall (fun tr => snd tr = Ok (downloaded_message (query_of (fst tr)))) completed.
Definition all_skipped (completed : list (song_info * result str)) : Prop :=
  Forall (fun tr => snd tr = Ok (skipped_message (query_of (fst tr)))) completed.

(** No listing of the download folder fails for these songs. *)
Definition no_listing_error (E : env) (songs : list song_info) : Prop :=
  forall song, In song songs -> scandir_error E (pattern_of song) = None.

(** Kinds of events. *)
Definition is_chatter (e : event) : bool :=
  match e with EPrint _ | ESleep _ => true | _ => false end.
Definition is_write (e : event) : bool :=
  match e with EWrite _ _ _ => true | _ => false end.
Definition is_download (e : event) : bool :=
  match e with EDownload _ _ => true | _ => false end.
Definition is_input (e : event) : bool :=
  match e with EInput _ => true | _ => false end.
(** The events of the per-track tasks. *)
Definition is_per_track (e : event) : bool :=
  match e with EGlob _ _ | EExtractInfo _ | EDownload _ _ => true | _ => false end.

(** The events of the fetch: console lines and page requests. *)
Definition is_fetch (e : event) : bool :=
  match e with EPrint _ | ESavedTracks _ _ => true | _ => false end.

(** The saved tracks are served as the non-empty pages [pages], one per
    request at offsets 0, [limit], [2 * limit], ..., and the request
    after the last of them is answered by [last]. *)
Definition serves (E : env) (limit : nat) (pages : list (list item))
    (last : result (list item)) : Prop :=
  (forall i page, nth_error pages i = Some page ->
     page <> [] /\ current_user_saved_tracks E limit (i * limit) = Ok page)
  /\ current_user_saved_tracks E limit (length pages * limit) = last.

(** The page requests of a trace, as (limit, offset). *)
Fixpoint page_requests (t : list event) : list (nat * nat) :=
  match t with
  | [] => []
  | ESavedTracks limit offset :: t' => (limit, offset) :: page_requests t'
  | _ :: t' => page_requests t'
  end.

(** [w'] comes after [w]: the trace is extended by events that satisfy
    [P], and no entry of the folder has disappeared. *)
Definition extends (P : event -> bool) (w w' : world) : Prop :=
  incl (fs w) (fs w') /\
  exists new, trace w' = trace w ++ new /\ forallb P new = true.

(** The same, for a folder that is left as it was. *)
Definition extends_trace (P : event -> bool) (w w' : world) : Prop :=
  fs w' = fs w /\
  exists new, trace w' = trace w ++ new /\ forallb P new = true.

(** A sequential computation that, however it ends, adds only events
    satisfying [P] and removes no entry of the folder. *)
Definition produces {A} (P : event -> bool) (m : M A) : Prop :=
  forall w, extends P w (snd (m w)).

(** The events before the first task: console lines, the creation of the
    folder, page requests. *)
Definition is_setup (e : event) : bool :=
  match e with EPrint _ | EMkdir _ | ESavedTracks _ _ => true | _ => false end.

(** The world when the [try] of [main] has created the folder, and when
    the authentication has succeeded. *)
Definition started (w : world) : world :=
  add_event (EMkdir (u "Downloaded_Music"))
    (add_event (EPrint (repeat_char "=" 40))
       (add_event (EPrint (u "Spotify Liked Songs Downloader")) w)).

Definition authenticated (w : world) : world :=
  add_event (EPrint (CHECK_MARK ++ u " Successfully authenticated with Spotify"))
    (started w).

(** The line of the handler of [main]. *)
Definition error_line (e : exn) : str :=
  CROSS_MARK ++ u " An error occurred: " ++ str_of_exn e.

Definition PLAYLIST_FILE : str := u "Downloaded_Music/playlist_info.json".




Section Safe.

Variables T R : Type.
(** What the other workers may do to the world between two actions of
    a task. *)
Variable le : world -> world -> Prop.
(** What is to hold of the result of the task tagged [t]. *)
Variable Post : T -> R -> world -> Prop.

(** From [w] on and whatever the other workers do within [le], every
    action of the program stays within [le] and its result satisfies
    [Post]. *)
Fixpoint safe (t : T) (p : prog R) (w : world) : Prop :=
  match p with
  | Ret r => Post t r w
  | Act upd k => forall w', le w w' -> le w' (upd w') /\ safe t (k w') (upd w')
  end.

Definition tasks_safe (w : world) (l : list (T * prog R)) : Prop :=
  Forall (fun tp => safe (fst tp) (snd tp) w) l.

Definition done_ok (w : world) (l : list (T * R)) : Prop :=
  Forall (fun tr => Post (fst tr) (snd tr) w) l.

Definition pool_safe (ps : Pool.pool T R) (w : world) : Prop :=
  tasks_safe w (Pool.queue ps) /\ tasks_safe w (Pool.running ps)
  /\ done_ok w (Pool.done ps).

(** The tags of all futures of a pool, done or not. *)
Definition tags (ps : Pool.pool T R) : list T :=
  map fst (Pool.done ps) ++ map fst (Pool.running ps) ++ map fst (Pool.queue ps).

End Safe.

(* ===================================================================== *)
(** ** Concrete inputs *)
(* ===================================================================== *)

(** A collaborator for the samples that names files as yt-dlp does for
    the templates of the script: in the template [%%] stands for a
    percent sign and [%(ext)s] for the extension, and the name of the
    file is what follows the last slash.  (Other fields of yt-dlp's
    template language do not occur in the samples.) *)
Module Ytdlp.

Fixpoint expand_aux (fuel : nat) (template ext : str) : str :=
  match fuel with
  | O => []
  | S fuel' =>
      match template with
      | [] => []
      | c :: rest =>
          if startswith (u "%%") template then
            37%N :: expand_aux fuel' (skipn 2 template) ext
          else if startswith (u "%(ext)s") template then
            ext ++ expand_aux fuel' (skipn 7 template) ext
          else c :: expand_aux fuel' rest ext
      end
  end.

Definition expand (template ext : str) : str :=
  expand_aux (length template) template ext.

Fixpoint basename (path : str) : str :=
  match path with
  | [] => []
  | _ :: rest => if existsb (N.eqb 47%N) path then basename rest else path
  end.

Definition file_name (opts : ydl_options) (ext : str) : str :=
  basename (expand (outtmpl opts) ext).

End Ytdlp.

Module Sample.

(** The track of the scenario of the specification. *)
Definition track : song_info :=
  {| name := u "Song"; artist := u "Band"; album := u "X";
     duration_ms := 200000; popularity := 50 |}.

Definition live_track : song_info :=
  {| name := u "Song [Live]"; artist := u "Band"; album := u "X";
     duration_ms := 215000; popularity := 40 |}.

Definition track_item : item :=
  {| track_name := u "Song"; track_artists := [u "Band"];
     track_album_name := u "X"; track_duration_ms := 200000;
     track_popularity := 50 |}.

Definition duet_item : item :=
  {| track_name := u "Tune"; track_artists := [u "Band"; u "Guest"];
     track_album_name := u "Y"; track_duration_ms := 180000;
     track_popularity := 7 |}.

Definition CLIENT_ID : str := u "0123456789abcdef".
Definition CLIENT_SECRET : str := u "fedcba9876543210".

(** The downloader after [authenticate_spotify]. *)
Definition downloader : SpotifyDownloader :=
  set_sp (new_downloader CLIENT_ID CLIENT_SECRET DEFAULT_REDIRECT_URI)
         (Spotify CLIENT_ID CLIENT_SECRET DEFAULT_REDIRECT_URI (u "user-library-read")).

Definition empty_world : world := {| fs := []; trace := [] |}.

(** No worker moves before the shutdown, which then runs the tasks one
    after the other, and the futures are read in that order. *)
Definition one_by_one : schedule := {| interleaving := []; yield_order := [] |}.

(** Two workers take turns, and the second future is read first. *)
Definition taking_turns : schedule :=
  {| interleaving := [0; 1; 0; 1; 0; 1; 0; 1]; yield_order := [1] |}.

(** Every collaborator works: the library holds [pages], every search
    has one hit, every download gives an mp3 file named by the output
    template, the user answers [y]. *)
Definition working (pages : list (list item)) : env :=
  {| cwd := u "/home/user";
     mkdir := fun _ => Ok tt;
     oauth := fun id secret uri scope => Ok (Spotify id secret uri scope);
     current_user_saved_tracks := fun limit offset => Ok (nth (offset / limit) pages []);
     scandir_error := fun _ => None;
     extract_info := fun q =>
       Ok {| entries := Some [ {| webpage_url := u "https://video.example/watch?v=1" |} ] |};
     download := fun _ opts => Ok (Ytdlp.file_name opts (u "mp3"));
     open_w := fun _ => Ok tt;
     write_error := fun _ _ => None;
     input := fun _ => Ok (u "y") |}.

Definition with_scandir_error (E : env) (f : str -> option exn) : env :=
  {| cwd := cwd E; mkdir := mkdir E; oauth := oauth E;
     current_user_saved_tracks := current_user_saved_tracks E;
     scandir_error := f;
     extract_info := extract_info E; download := download E;
     open_w := open_w E; write_error := write_error E; input := input E |}.

Definition with_extract_info (E : env) (f : str -> result info) : env :=
  {| cwd := cwd E; mkdir := mkdir E; oauth := oauth E;
     current_user_saved_tracks := current_user_saved_tracks E;
     scandir_error := scandir_error E;
     extract_info := f; download := download E;
     open_w := open_w E; write_error := write_error E; input := input E |}.


Definition with_saved_tracks (E : env) (f : nat -> nat -> result (list item)) : env :=
  {| cwd := cwd E; mkdir := mkdir E; oauth := oauth E;
     current_user_saved_tracks := f;
     scandir_error := scandir_error E;
     extract_info := extract_info E; download := download E;
     open_w := open_w E; write_error := write_error E; input := input E |}.

Definition too_many_open_files : exn :=
  Exn "OSError" (u "[Errno 24] Too many open files: 'Downloaded_Music'").

(** Listing the download folder fails. *)
Definition listing_fails : env :=
  with_scandir_error (working [[track_item]]) (fun _ => Some too_many_open_files).

(** The search finds nothing. *)
Definition nothing_found : env :=
  with_extract_info (working [[track_item]]) (fun _ => Ok {| entries := Some [] |}).




Definition api_error : exn := Exn "SpotifyException" (u "http status: 502, code: -1").

(** The second page request fails. *)
Definition second_page_fails : env :=
  with_saved_tracks (working [])
    (fun limit offset =>
       if Nat.eqb offset 0 then Ok [track_item; duet_item] else Raise api_error).

Definition with_oauth (E : env) (f : str -> str -> str -> str -> result spotify) : env :=
  {| cwd := cwd E; mkdir := mkdir E; oauth := f;
     current_user_saved_tracks := current_user_saved_tracks E;
     scandir_error := scandir_error E;
     extract_info := extract_info E; download := download E;
     open_w := open_w E; write_error := write_error E; input := input E |}.

(** A title with two percent signs, which the output template of line
    126 turns into one. *)
Definition percent_track : song_info :=
  {| name := u "100%% Real"; artist := u "Band"; album := u "X";
     duration_ms := 180000; popularity := 20 |}.





Definition oauth_error : exn :=
  Exn "SpotifyOauthError" (u "error: invalid_client, error_description: Invalid client").

(** The authentication fails. *)
Definition authentication_fails : env :=
  with_oauth (working []) (fun _ _ _ _ => Raise oauth_error).

End Sample.

(* ===================================================================== *)
(** ** Further notions and inputs *)
(* ===================================================================== *)

(** Counters at zero, and one more of each kind. *)
Definition no_counts : counters :=
  {| successful_downloads := 0; failed_downloads := 0; skipped_downloads := 0 |}.

Definition one_more_downloaded (c : counters) : counters :=
  {| successful_downloads := successful_downloads c + 1;
     failed_downloads := failed_downloads c;
     skipped_downloads := skipped_downloads c |}.

Definition one_more_skipped (c : counters) : counters :=
  {| successful_downloads := successful_downloads c;
     failed_downloads := failed_downloads c;
     skipped_downloads := skipped_downloads c + 1 |}.

Definition one_more_failed (c : counters) : counters :=
  {| successful_downloads := successful_downloads c;
     failed_downloads := failed_downloads c + 1;
     skipped_downloads := skipped_downloads c |}.

(** The three lines that [download_all_songs] prints before it starts
    the workers (lines 141-143). *)
Definition header_lines (E : env) (self : SpotifyDownloader) (n : nat) : list str :=
  [ [10%N] ++ u "Starting download of " ++ str_of_nat n ++ u " songs...";
    u "Download folder: " ++ absolute E (download_folder self);
    repeat_char "-" 50 ].




(** What the loop of lines 157-169 adds to the trace for one message:
    the line, and the pause of half a second. *)
Definition report (msg : str) : list event := [EPrint msg; ESleep 500].

(** A future that holds a message. *)
Definition holding (sm : song_info * str) : song_info * result str :=
  (fst sm, Ok (snd sm)).

(** The [try] block of [search_and_download_song] (lines 113-137): what
    a task still has to do when its existence check has found nothing. *)
Definition try_block (E : env) (self : SpotifyDownloader) (song : song_info) : task str :=
  ttry
    (tbind (ydl_extract_info E (u "ytsearch1:" ++ query_of song))
       (fun info =>
          match entries info with
          | Some (video_info :: _) =>
              tbind (ydl_download E (webpage_url video_info)
                       (with_outtmpl (ydl_opts self)
                          (path_join (download_folder self)
                             (safe_filename_of song ++ u ".%(ext)s"))))
                    (fun _ => tret (downloaded_message (query_of song)))
          | _ => tret (not_found_message (query_of song))
          end))
    (fun e => tret (error_message (query_of song) e)).

Module Cases.

Definition with_input (E : env) (f : str -> result str) : env :=
  {| cwd := cwd E; mkdir := mkdir E; oauth := oauth E;
     current_user_saved_tracks := current_user_saved_tracks E;
     scandir_error := scandir_error E;
     extract_info := extract_info E; download := download E;
     open_w := open_w E; write_error := write_error E; input := f |}.

Definition with_open_w (E : env) (f : str -> result unit) : env :=
  {| cwd := cwd E; mkdir := mkdir E; oauth := oauth E;
     current_user_saved_tracks := current_user_saved_tracks E;
     scandir_error := scandir_error E;
     extract_info := extract_info E; download := download E;
     open_w := f; write_error := write_error E; input := input E |}.

(** The user answers [yes], which is not [y]. *)
Definition answers_yes : env :=
  with_input (Sample.working [[Sample.track_item]]) (fun _ => Ok (u "yes")).

Definition read_only : exn :=
  Exn "OSError" (u "[Errno 30] Read-only file system: 'Downloaded_Music/playlist_info.json'").

(** The snapshot cannot be opened for writing. *)
Definition snapshot_fails : env :=
  with_open_w (Sample.working [[Sample.track_item]]) (fun _ => Raise read_only).

(** The library never ends: every page request is answered by a page
    of one track. *)
Definition endless : env :=
  Sample.with_saved_tracks (Sample.working []) (fun _ _ => Ok [Sample.track_item]).

(** A track and its sequel: the identifier of the first is a prefix of
    the identifier of the second. *)
Definition sequel : song_info :=
  {| name := u "Song 2"; artist := u "Band"; album := u "X";
     duration_ms := 190000; popularity := 30 |}.

(** The same title on another album. *)
Definition reissue : song_info :=
  {| name := u "Song"; artist := u "Band"; album := u "Greatest Hits";
     duration_ms := 200000; popularity := 60 |}.

End Cases.

(* ===================================================================== *)
(** * Theorems *)
(* ===================================================================== *)

Unset Implicit Arguments.

Arguments u : simpl never.
Arguments str_of_nat : simpl never.
Arguments repeat_char : simpl never.

(** ** Strings *)

Lemma str_eqb_eq (a b : str) : str_eqb a b = true <-> a = b.
Proof.
  revert b; induction a as [|c a IH]; intros [|d b]; simpl; split;
    try congruence; try (intros _; reflexivity).
  - rewrite andb_true_iff, N.eqb_eq, IH. intros [-> ->]; reflexivity.
  - intros [= -> ->]. rewrite N.eqb_refl. apply IH. reflexivity.
Qed.

Lemma str_eqb_refl (a : str) : str_eqb a a = true.
Proof. apply str_eqb_eq; reflexivity. Qed.

Lemma startswith_app (p s : str) : startswith p (p ++ s) = true.
Proof. induction p as [|c p IH]; simpl; [|rewrite N.eqb_refl]; auto. Qed.

Lemma startswith_iff (p s : str) :
  startswith p s = true <-> exists rest, s = p ++ rest.
Proof.
  revert s; induction p as [|c p IH]; intros s; simpl.
  - split; eauto.
  - destruct s as [|d s]; [split; [discriminate | intros [r [=]]]|].
    rewrite andb_true_iff, N.eqb_eq, IH. split.
    + intros [-> [r ->]]. eauto.
    + intros [r [= -> ->]]. eauto.
Qed.

(** ** The sanitizer *)

Lemma sanitize_pattern_compiles :
  Re.compile SANITIZE_PATTERN =
  Some {| Re.negated := false; Re.items := map Re.CChar spec_reserved |}.
Proof. reflexivity. Qed.

Lemma sanitize_filename_nil : sanitize_filename [] = [].
Proof. reflexivity. Qed.

Lemma sanitize_filename_cons (c : char) (x : str) :
  sanitize_filename (c :: x) =
  if is_reserved c then sanitize_filename x else c :: sanitize_filename x.
Proof. reflexivity. Qed.

Lemma sanitize_filename_filter (x : str) :
  sanitize_filename x = filter (fun c => negb (is_reserved c)) x.
Proof.
  induction x as [|c x IH]; [reflexivity|].
  rewrite sanitize_filename_cons. simpl filter.
  destruct (is_reserved c); simpl; rewrite IH; reflexivity.
Qed.

Lemma is_reserved_In (c : char) : is_reserved c = true <-> In c spec_reserved.
Proof.
  unfold is_reserved. rewrite existsb_exists. split.
  - intros [d [Hd Heq]]. apply N.eqb_eq in Heq. subst; assumption.
  - intros H. exists c. split; [assumption | apply N.eqb_refl].
Qed.

Lemma sanitize_filename_In (c : char) (x : str) :
  In c (sanitize_filename x) <-> In c x /\ ~ In c spec_reserved.
Proof.
  rewrite sanitize_filename_filter, filter_In, negb_true_iff,
    <- is_reserved_In, not_true_iff_false.
  reflexivity.
Qed.

Lemma sanitize_filename_app (x y : str) :
  sanitize_filename (x ++ y) = sanitize_filename x ++ sanitize_filename y.
Proof. rewrite !sanitize_filename_filter. apply filter_app. Qed.

Lemma sanitize_filename_idempotent (x : str) :
  sanitize_filename (sanitize_filename x) = sanitize_filename x.
Proof.
  rewrite !sanitize_filename_filter.
  induction x as [|c x IH]; [reflexivity|].
  simpl. destruct (is_reserved c) eqn:Hc; simpl; [|rewrite Hc; simpl; f_equal]; exact IH.
Qed.

(** C4.  [sanitize_filename] is a function of its argument alone, defined
    on every string; its result is the argument with exactly the nine
    reserved characters (less-than, greater-than, colon, double quote,
    slash, backslash, bar, question mark, star) removed: every other code
    point, ASCII or not, is kept, in the same order and as many times;
    and sanitizing twice is sanitizing once. *)
Theorem sanitize_filename_spec :
  forall x : str,
    sanitize_filename x = filter (fun c => negb (existsb (N.eqb c) spec_reserved)) x
    /\ (forall c, In c (sanitize_filename x) <-> In c x /\ ~ In c spec_reserved)
    /\ (forall c, ~ In c spec_reserved ->
          count_occ N.eq_dec (sanitize_filename x) c = count_occ N.eq_dec x c)
    /\ sanitize_filename (sanitize_filename x) = sanitize_filename x.
Proof.
  intros x. split; [apply sanitize_filename_filter|].
  split; [intros c; apply sanitize_filename_In|].
  split; [|apply sanitize_filename_idempotent].
  intros c Hc. induction x as [|d x IH]; [reflexivity|].
  rewrite sanitize_filename_cons.
  destruct (is_reserved d) eqn:Hd.
  - apply is_reserved_In in Hd. simpl.
    destruct (N.eq_dec d c) as [->|_]; [contradiction | exact IH].
  - simpl. destruct (N.eq_dec d c); rewrite IH; reflexivity.
Qed.

(** A title with reserved characters and letters outside ASCII (here
    [e] with acute accent, U+00E9): the reserved ones go, the accented
    letter stays. *)
Lemma sanitize_filename_spec_witness :
  sanitize_filename (u "AC/DC: Caf" ++ [233%N] ++ u "?") = u "ACDC Caf" ++ [233%N]
  /\ count_occ N.eq_dec (sanitize_filename (u "AC/DC: Caf" ++ [233%N] ++ u "?")) 233%N = 1.
Proof.
  destruct (sanitize_filename_spec (u "AC/DC: Caf" ++ [233%N] ++ u "?"))
    as (Hfilter & _ & Hcount & _).
  split.
  - rewrite Hfilter. reflexivity.
  - rewrite (Hcount 233%N); [reflexivity|].
    intros H. vm_compute in H.
    repeat (destruct H as [H|H]; [discriminate H|]). exact H.
Defined.

(** ** [fnmatch] and the existence check *)

Lemma translate_plain_star (s : str) :
  plain s = true ->
  Fnmatch.translate (s ++ u "*") = map Fnmatch.TLit s ++ [Fnmatch.TStar].
Proof.
  unfold Fnmatch.translate.
  induction s as [|c s IH]; simpl; [reflexivity|].
  rewrite andb_true_iff. unfold plain_char at 1.
  rewrite negb_true_iff, !orb_false_iff. intros [[[H1 H2] H3] Hs].
  rewrite H1, H2, H3. f_equal. apply IH, Hs.
Qed.

Lemma tmatch_star_end (s : str) : Fnmatch.tmatch [Fnmatch.TStar] s = true.
Proof.
  simpl. induction s as [|c s IH]; [reflexivity|].
  rewrite IH. apply orb_true_r.
Qed.

Lemma tmatch_prefix (p s : str) :
  Fnmatch.tmatch (map Fnmatch.TLit p ++ [Fnmatch.TStar]) s = startswith p s.
Proof.
  revert s; induction p as [|c p IH]; intros s.
  - apply tmatch_star_end.
  - destruct s as [|d s]; [reflexivity|].
    change (Fnmatch.tmatch (map Fnmatch.TLit (c :: p) ++ [Fnmatch.TStar]) (d :: s))
      with ((d =? c)%N && Fnmatch.tmatch (map Fnmatch.TLit p ++ [Fnmatch.TStar]) s).
    rewrite IH. simpl. rewrite (N.eqb_sym d c). reflexivity.
Qed.

Lemma fnmatchcase_plain (name identifier : str) :
  plain identifier = true ->
  Fnmatch.fnmatchcase name (identifier ++ u "*") = startswith identifier name.
Proof.
  intros H. unfold Fnmatch.fnmatchcase.
  rewrite translate_plain_star by assumption. apply tmatch_prefix.
Qed.

Lemma existence_check_existsb (entries : list str) (identifier : str) :
  existence_check entries identifier =
  existsb (fun name => Fnmatch.fnmatchcase name (identifier ++ u "*")) entries.
Proof.
  unfold existence_check, glob.
  induction entries as [|e entries IH]; [reflexivity|].
  simpl. destruct (Fnmatch.fnmatchcase e _); [reflexivity | exact IH].
Qed.

(** For an identifier without wildcard characters the check is the
    prefix test the comment of line 108 announces. *)
Lemma existence_check_plain (entries : list str) (identifier : str) :
  plain identifier = true ->
  existence_check entries identifier = existsb (startswith identifier) entries.
Proof.
  intros H. rewrite existence_check_existsb.
  induction entries as [|e entries IH]; [reflexivity|].
  simpl. rewrite fnmatchcase_plain by assumption. rewrite IH. reflexivity.
Qed.

Lemma existence_check_empty (identifier : str) : existence_check [] identifier = false.
Proof. reflexivity. Qed.

(** A sanitized string holds neither star nor question mark, so it is
    plain as soon as it holds no opening bracket. *)
Lemma sanitized_plain (x : str) :
  ~ In 91%N x -> plain (sanitize_filename x) = true.
Proof.
  intros H. apply forallb_forall. intros c Hc.
  apply sanitize_filename_In in Hc. destruct Hc as [Hx Hr].
  unfold plain_char. rewrite negb_true_iff, !orb_false_iff, !N.eqb_neq.
  repeat split; intros ->; [apply Hr | apply Hr | apply H]; simpl; auto 10.
Qed.

(** C3, at the failing input: the download folder holds the file that a
    download of the track [Song [Live]] by [Band] writes, its name starts
    with the identifier of that track, and the check of lines 109-110
    does not find it: in the pattern the bracketed part of the identifier
    is a character set. *)
Theorem existence_check_misses_bracketed_identifier :
  let identifier := u "Band - Song [Live]" in
  let directory := [u "Band - Song [Live].mp3"] in
  existsb (startswith identifier) directory = true
  /\ existence_check directory identifier = false
  /\ existence_check [u "Band - Song L.mp3"] identifier = true.
Proof. repeat split. Qed.

(** ** The thread pool *)

Section PoolFacts.

Variables T R : Type.

Lemma replace_nth_perm {A} (i : nat) (x y : A) (l : list A) :
  nth_error l i = Some x ->
  Permutation (y :: l) (x :: Pool.replace_nth i y l).
Proof.
  revert i; induction l as [|a l IH]; intros [|i]; simpl; try discriminate.
  - intros [= ->]. apply perm_swap.
  - intros H. specialize (IH i H).
    apply perm_trans with (a :: y :: l); [apply perm_swap|].
    apply perm_trans with (a :: x :: Pool.replace_nth i y l);
      [apply perm_skip, IH | apply perm_swap].
Qed.

Lemma remove_nth_perm {A} (i : nat) (x : A) (l : list A) :
  nth_error l i = Some x ->
  Permutation l (x :: Pool.remove_nth i l).
Proof.
  revert i; induction l as [|a l IH]; intros [|i]; simpl; try discriminate.
  - intros [= ->]. reflexivity.
  - intros H.
    apply perm_trans with (a :: x :: Pool.remove_nth i l);
      [apply perm_skip, IH, H | apply perm_swap].
Qed.

Lemma replace_nth_same_tag (i : nat) (t : T) (p q : prog R) (l : list (T * prog R)) :
  nth_error l i = Some (t, p) ->
  map fst (Pool.replace_nth i (t, q) l) = map fst l.
Proof.
  revert i; induction l as [|a l IH]; intros [|i]; simpl; try discriminate.
  - intros [= ->]. reflexivity.
  - intros H. f_equal. apply IH, H.
Qed.

Lemma Forall_replace_nth {A} (P : A -> Prop) (i : nat) (x : A) (l : list A) :
  Forall P l -> P x -> Forall P (Pool.replace_nth i x l).
Proof.
  intros Hl Hx. revert i; induction Hl as [|a l Ha Hl IH]; intros [|i]; simpl;
    constructor; auto.
Qed.

Lemma Forall_remove_nth {A} (P : A -> Prop) (i : nat) (l : list A) :
  Forall P l -> Forall P (Pool.remove_nth i l).
Proof.
  intros Hl. revert i; induction Hl as [|a l Ha Hl IH]; intros [|i]; simpl;
    try constructor; auto.
Qed.

Lemma worker_step_tags (i : nat) (ps : Pool.pool T R) (w : world) :
  Permutation (tags (fst (Pool.worker_step i ps w))) (tags ps).
Proof.
  unfold Pool.worker_step, tags.
  destruct (nth_error (Pool.running ps) i) as [[t [r|upd k]]|] eqn:Hi; simpl;
    [|erewrite replace_nth_same_tag by eassumption; reflexivity | reflexivity].
  destruct (Pool.queue ps) as [|next q]; simpl; rewrite map_app; simpl.
  - rewrite app_nil_r, <- app_assoc. apply Permutation_app_head. simpl.
    pose proof (remove_nth_perm i _ (Pool.running ps) Hi) as Hp.
    apply (Permutation_map fst) in Hp. simpl in Hp.
    rewrite app_nil_r. symmetry. exact Hp.
  - rewrite <- app_assoc. apply Permutation_app_head. simpl.
    pose proof (replace_nth_perm i _ next (Pool.running ps) Hi) as Hp.
    apply (Permutation_map fst) in Hp. simpl in Hp.
    apply perm_trans with (fst next :: map fst (Pool.running ps) ++ map fst q);
      [|apply Permutation_middle].
    apply (Permutation_app_tail (map fst q)) in Hp. simpl in Hp.
    symmetry. exact Hp.
Qed.

Lemma run_schedule_tags (sched : list nat) (ps : Pool.pool T R) (w : world) :
  Permutation (tags (fst (Pool.run_schedule sched ps w))) (tags ps).
Proof.
  revert ps w; induction sched as [|i sched IH]; intros ps w; simpl; [reflexivity|].
  pose proof (worker_step_tags i ps w) as H.
  destruct (Pool.worker_step i ps w) as [ps' w']. simpl in H.
  rewrite IH. exact H.
Qed.

Lemma finish_tags (tasks : list (T * prog R)) (w : world) :
  map fst (fst (Pool.finish tasks w)) = map fst tasks.
Proof.
  revert w; induction tasks as [|[t p] tasks IH]; intros w; simpl; [reflexivity|].
  destruct (run p w) as [r w1]. specialize (IH w1).
  destruct (Pool.finish tasks w1) as [rs w2]. simpl in *. f_equal. exact IH.
Qed.

(** Every submitted task completes exactly once: the completed futures
    are the submitted ones, in some order. *)
Lemma execute_tags (max_workers : nat) (sched : list nat)
    (tasks : list (T * prog R)) (w : world) :
  Permutation (map fst (fst (Pool.execute max_workers sched tasks w))) (map fst tasks).
Proof.
  unfold Pool.execute.
  pose proof (run_schedule_tags sched (Pool.submit_all max_workers tasks) w) as H.
  destruct (Pool.run_schedule sched (Pool.submit_all max_workers tasks) w) as [ps w'].
  unfold Pool.shutdown.
  pose proof (finish_tags (Pool.running ps ++ Pool.queue ps) w') as Hf.
  destruct (Pool.finish (Pool.running ps ++ Pool.queue ps) w') as [rs w2].
  simpl in *. rewrite map_app, Hf, map_app.
  unfold tags in H. simpl in H. rewrite H.
  rewrite <- map_app, firstn_skipn. reflexivity.
Qed.

Variable le : world -> world -> Prop.
Variable Post : T -> R -> world -> Prop.
Hypothesis le_refl : forall w, le w w.
Hypothesis le_trans : forall a b c, le a b -> le b c -> le a c.
Hypothesis Post_stable : forall t r w w', Post t r w -> le w w' -> Post t r w'.

Lemma safe_mono (t : T) (p : prog R) (w w' : world) :
  safe le Post t p w -> le w w' -> safe le Post t p w'.
Proof.
  destruct p as [r|upd k]; simpl.
  - intros H Hle. eapply Post_stable; eassumption.
  - intros H Hle w'' Hle'. apply H. eapply le_trans; eassumption.
Qed.

Lemma run_safe (t : T) (p : prog R) (w : world) :
  safe le Post t p w ->
  Post t (fst (run p w)) (snd (run p w)) /\ le w (snd (run p w)).
Proof.
  revert w; induction p as [r|upd k IH]; intros w; simpl.
  - intros H. split; [exact H | apply le_refl].
  - intros H. destruct (H w (le_refl w)) as [Hle Hk].
    destruct (IH w (upd w) Hk) as [HP Hle'].
    split; [exact HP | eapply le_trans; eassumption].
Qed.

Lemma tasks_safe_mono (w w' : world) (l : list (T * prog R)) :
  tasks_safe le Post w l -> le w w' -> tasks_safe le Post w' l.
Proof.
  intros H Hle. eapply Forall_impl; [|exact H].
  intros [t p] Hs. eapply safe_mono; eassumption.
Qed.

Lemma done_ok_mono (w w' : world) (l : list (T * R)) :
  done_ok Post w l -> le w w' -> done_ok Post w' l.
Proof.
  intros H Hle. eapply Forall_impl; [|exact H].
  intros [t r] Hs. eapply Post_stable; eassumption.
Qed.

Lemma worker_step_safe (i : nat) (ps : Pool.pool T R) (w : world) :
  pool_safe le Post ps w ->
  pool_safe le Post (fst (Pool.worker_step i ps w)) (snd (Pool.worker_step i ps w))
  /\ le w (snd (Pool.worker_step i ps w)).
Proof.
  intros (Hq & Hr & Hd). unfold Pool.worker_step.
  destruct (nth_error (Pool.running ps) i) as [[t [r|upd k]]|] eqn:Hi; simpl.
  - assert (Ht : Post t r w).
    { apply nth_error_In in Hi.
      apply (proj1 (Forall_forall _ _) Hr) in Hi. exact Hi. }
    destruct (Pool.queue ps) as [|next q]; simpl;
      (split; [|apply le_refl]); unfold pool_safe; simpl.
    + repeat split; [constructor | apply Forall_remove_nth, Hr|].
      apply Forall_app; split; [exact Hd | repeat constructor; exact Ht].
    + inversion Hq; subst.
      repeat split; [assumption | apply Forall_replace_nth; assumption|].
      apply Forall_app; split; [exact Hd | repeat constructor; exact Ht].
  - assert (Ht : safe le Post t (Act upd k) w).
    { apply nth_error_In in Hi.
      apply (proj1 (Forall_forall _ _) Hr) in Hi. exact Hi. }
    destruct (Ht w (le_refl w)) as [Hle Hk].
    split; [|exact Hle]. unfold pool_safe; simpl.
    repeat split.
    + eapply tasks_safe_mono; eassumption.
    + apply Forall_replace_nth; [eapply tasks_safe_mono; eassumption | exact Hk].
    + eapply done_ok_mono; eassumption.
  - split; [repeat split; assumption | apply le_refl].
Qed.

Lemma run_schedule_safe (sched : list nat) (ps : Pool.pool T R) (w : world) :
  pool_safe le Post ps w ->
  pool_safe le Post (fst (Pool.run_schedule sched ps w)) (snd (Pool.run_schedule sched ps w))
  /\ le w (snd (Pool.run_schedule sched ps w)).
Proof.
  revert ps w; induction sched as [|i sched IH]; intros ps w H; simpl.
  - split; [exact H | apply le_refl].
  - destruct (worker_step_safe i ps w H) as [H1 Hle].
    destruct (Pool.worker_step i ps w) as [ps' w']. simpl in *.
    destruct (IH ps' w' H1) as [H2 Hle'].
    split; [exact H2 | eapply le_trans; eassumption].
Qed.

Lemma finish_safe (tasks : list (T * prog R)) (w : world) :
  tasks_safe le Post w tasks ->
  done_ok Post (snd (Pool.finish tasks w)) (fst (Pool.finish tasks w))
  /\ le w (snd (Pool.finish tasks w)).
Proof.
  revert w; induction tasks as [|[t p] tasks IH]; intros w H; simpl.
  - split; [constructor | apply le_refl].
  - inversion H as [|? ? Hp Hrest]; subst. simpl in Hp.
    destruct (run_safe t p w Hp) as [HP Hle].
    destruct (run p w) as [r w1]. simpl in *.
    destruct (IH w1 (tasks_safe_mono w w1 tasks Hrest Hle)) as [Hd Hle'].
    destruct (Pool.finish tasks w1) as [rs w2]. simpl in *.
    split; [|eapply le_trans; eassumption].
    constructor; [simpl; eapply Post_stable; eassumption | exact Hd].
Qed.

(** Tasks that are safe when submitted leave results that satisfy
    [Post], under every interleaving. *)
Lemma execute_safe (max_workers : nat) (sched : list nat)
    (tasks : list (T * prog R)) (w : world) :
  tasks_safe le Post w tasks ->
  done_ok Post (snd (Pool.execute max_workers sched tasks w))
          (fst (Pool.execute max_workers sched tasks w))
  /\ le w (snd (Pool.execute max_workers sched tasks w)).
Proof.
  intros H. unfold Pool.execute.
  assert (H0 : pool_safe le Post (Pool.submit_all max_workers tasks) w).
  { unfold pool_safe, Pool.submit_all; simpl.
    rewrite <- (firstn_skipn max_workers tasks) in H.
    apply Forall_app in H. destruct H as [Hf Hs].
    repeat split; [exact Hs | exact Hf | constructor]. }
  destruct (run_schedule_safe sched _ w H0) as [(Hq & Hr & Hd) Hle].
  destruct (Pool.run_schedule sched (Pool.submit_all max_workers tasks) w) as [ps w'].
  simpl in *. unfold Pool.shutdown.
  assert (Hall : tasks_safe le Post w' (Pool.running ps ++ Pool.queue ps)).
  { apply Forall_app; split; assumption. }
  destruct (finish_safe _ w' Hall) as [Hd' Hle'].
  destruct (Pool.finish (Pool.running ps ++ Pool.queue ps) w') as [rs w2].
  simpl in *. split; [|eapply le_trans; eassumption].
  apply Forall_app; split; [eapply done_ok_mono; eassumption | exact Hd'].
Qed.

End PoolFacts.

(** ** One task *)

Section TaskFacts.

Variable E : env.
Variable self : SpotifyDownloader.
Variable song : song_info.

(** What a task does when nothing interleaves with it, path by path. *)
Lemma run_search_and_download_song (w : world) :
  run (search_and_download_song E self song) w =
  let w1 := add_event (EGlob (download_folder self) (pattern_of song)) w in
  match scandir_error E (pattern_of song) with
  | Some e => (Raise e, w1)
  | None =>
      match glob (fs w) (pattern_of song) with
      | _ :: _ => (Ok (skipped_message (query_of song)), w1)
      | [] =>
          let w2 := add_event (EExtractInfo (search_query_of song)) w1 in
          match extract_info E (search_query_of song) with
          | Raise e => (Ok (error_message (query_of song) e), w2)
          | Ok i =>
              match entries i with
              | Some (video_info :: _) =>
                  let w3 := add_event (EDownload (webpage_url video_info) (custom_opts_of self song)) w2 in
                  match download E (webpage_url video_info) (custom_opts_of self song) with
                  | Ok file_name => (Ok (downloaded_message (query_of song)), add_file file_name w3)
                  | Raise e => (Ok (error_message (query_of song) e), w3)
                  end
              | _ => (Ok (not_found_message (query_of song)), w2)
              end
          end
      end
  end.
Proof.
  unfold search_and_download_song, glob_folder, tbind, ttry.
  unfold pattern_of, search_query_of, custom_opts_of.
  cbn [run prog_bind].
  destruct (scandir_error E _); [reflexivity|].
  destruct (glob (fs w) _); [|reflexivity].
  cbn [run prog_bind ydl_extract_info].
  destruct (extract_info E _) as [i|e]; [|reflexivity].
  cbn [run prog_bind].
  destruct (entries i) as [[|v l]|]; try reflexivity.
  cbn [run prog_bind ydl_download].
  destruct (download E (webpage_url v) _); reflexivity.
Qed.

Variable le : world -> world -> Prop.
Variable Post : song_info -> result str -> world -> Prop.
Hypothesis le_trans : forall a b c, le a b -> le b c -> le a c.
Hypothesis le_event : forall w e, is_per_track e = true -> le w (add_event e w).

Variable w0 : world.

Hypothesis le_file :
  missed E le song w0 -> forall w e f, is_per_track e = true -> le w (add_file f (add_event e w)).

Hypothesis post_raise :
  forall e w, le w0 w -> scandir_error E (pattern_of song) = Some e ->
    Post song (Raise e) (add_event (EGlob (download_folder self) (pattern_of song)) w).
Hypothesis post_skipped :
  forall w, le w0 w -> scandir_error E (pattern_of song) = None -> glob (fs w) (pattern_of song) <> [] ->
    Post song (Ok (skipped_message (query_of song)))
      (add_event (EGlob (download_folder self) (pattern_of song)) w).
Hypothesis post_error :
  forall e w, missed E le song w0 -> le w0 w -> Post song (Ok (error_message (query_of song) e)) w.
Hypothesis post_not_found :
  forall w, missed E le song w0 -> le w0 w -> Post song (Ok (not_found_message (query_of song))) w.
Hypothesis post_downloaded :
  forall w url file_name, missed E le song w0 -> le w0 w ->
    download E url (custom_opts_of self song) = Ok file_name ->
    Post song (Ok (downloaded_message (query_of song)))
      (add_file file_name (add_event (EDownload url (custom_opts_of self song)) w)).

(** The task is safe from [w0] on as soon as the events and files of a
    task are within [le] and [Post] holds at the end of each path. *)
Lemma search_and_download_song_safe :
  safe le Post song (search_and_download_song E self song) w0.
Proof.
  unfold search_and_download_song, glob_folder, tbind, ttry.
  cbn [safe prog_bind]. intros w1 H1. split; [apply le_event; reflexivity|].
  destruct (scandir_error E _) as [e|] eqn:Hscan in |- *; cbn [safe prog_bind];
    [apply post_raise; [exact H1 | exact Hscan]|].
  destruct (glob (fs w1) _) as [|f fl] eqn:Hglob in |- *; cbn [safe prog_bind tret];
    [|apply post_skipped; [exact H1 | exact Hscan | unfold pattern_of; rewrite Hglob; discriminate]].
  assert (Hm : missed E le song w0) by (exists w1; split; [exact H1 | split; [exact Hscan | exact Hglob]]).
  cbn [safe prog_bind ydl_extract_info]. intros w2 H2.
  assert (H02 : le w0 w2).
  { eapply le_trans; [exact H1|]. eapply le_trans; [|exact H2].
    apply le_event; reflexivity. }
  split; [apply le_event; reflexivity|].
  assert (H02' : le w0 (add_event (EExtractInfo (search_query_of song)) w2)).
  { eapply le_trans; [exact H02 | apply le_event; reflexivity]. }
  destruct (extract_info E _) as [i|e] in |- *; cbn [safe prog_bind tret];
    [|apply post_error; assumption].
  destruct (entries i) as [[|v l]|]; cbn [safe prog_bind tret];
    try (apply post_not_found; assumption).
  cbn [safe prog_bind ydl_download]. intros w3 H3.
  assert (H03 : le w0 w3) by (eapply le_trans; eassumption).
  destruct (download E (webpage_url v) _) as [ext|e] eqn:Hd in |- *; cbn [safe prog_bind tret].
  - split; [apply le_file; [exact Hm | reflexivity]|].
    apply post_downloaded; assumption.
  - split; [apply le_event; reflexivity|].
    apply post_error; [assumption|].
    eapply le_trans; [exact H03 | apply le_event; reflexivity].
Qed.

End TaskFacts.

(** ** Sequential code *)

Lemma world_eta (w : world) : {| fs := fs w; trace := trace w |} = w.
Proof. destruct w; reflexivity. Qed.

Lemma extends_trace_refl (P : event -> bool) (w : world) : extends_trace P w w.
Proof. split; [reflexivity|]. exists []. rewrite app_nil_r. split; reflexivity. Qed.

Lemma extends_trace_trans (P : event -> bool) (a b c : world) :
  extends_trace P a b -> extends_trace P b c -> extends_trace P a c.
Proof.
  intros [Hf1 (n1 & Ht1 & Hp1)] [Hf2 (n2 & Ht2 & Hp2)].
  split; [congruence|]. exists (n1 ++ n2).
  rewrite Ht2, Ht1, app_assoc, forallb_app, Hp1, Hp2. split; reflexivity.
Qed.

Lemma extends_trace_event (P : event -> bool) (e : event) (w : world) :
  P e = true -> extends_trace P w (add_event e w).
Proof.
  intros H. split; [reflexivity|]. exists [e]. simpl. rewrite H. split; reflexivity.
Qed.

Lemma extends_trace_weaken (P Q : event -> bool) (w w' : world) :
  (forall e, P e = true -> Q e = true) ->
  extends_trace P w w' -> extends_trace Q w w'.
Proof.
  intros H [Hf (n & Ht & Hp)]. split; [exact Hf|]. exists n. split; [exact Ht|].
  apply forallb_forall. intros e He. apply H.
  apply (proj1 (forallb_forall _ _) Hp), He.
Qed.

Lemma extends_refl (P : event -> bool) (w : world) : extends P w w.
Proof. split; [apply incl_refl|]. exists []. rewrite app_nil_r. split; reflexivity. Qed.

Lemma extends_trans (P : event -> bool) (a b c : world) :
  extends P a b -> extends P b c -> extends P a c.
Proof.
  intros [Hf1 (n1 & Ht1 & Hp1)] [Hf2 (n2 & Ht2 & Hp2)].
  split; [eapply incl_tran; eassumption|]. exists (n1 ++ n2).
  rewrite Ht2, Ht1, app_assoc, forallb_app, Hp1, Hp2. split; reflexivity.
Qed.

Lemma extends_event (P : event -> bool) (e : event) (w : world) :
  P e = true -> extends P w (add_event e w).
Proof.
  intros H. split; [apply incl_refl|]. exists [e]. simpl. rewrite H. split; reflexivity.
Qed.

Lemma create_incl (f : str) (l : list str) : incl l (create f l).
Proof.
  unfold create. destruct (existsb (str_eqb f) l); [apply incl_refl|].
  apply incl_appl, incl_refl.
Qed.

Lemma create_In (f : str) (l : list str) : In f (create f l).
Proof.
  unfold create. destruct (existsb (str_eqb f) l) eqn:H.
  - apply existsb_exists in H. destruct H as (g & Hg & Heq).
    apply str_eqb_eq in Heq. subst. exact Hg.
  - apply in_or_app. right. left. reflexivity.
Qed.

Lemma extends_file (P : event -> bool) (e : event) (f : str) (w : world) :
  P e = true -> extends P w (add_file f (add_event e w)).
Proof.
  intros H. split; [apply create_incl|]. exists [e]. simpl. rewrite H. split; reflexivity.
Qed.

Lemma bind_print {B} (line : str) (f : unit -> M B) (w : world) :
  bind (print line) f w = f tt (add_event (EPrint line) w).
Proof. reflexivity. Qed.

Lemma bind_emit {B} (e : event) (f : unit -> M B) (w : world) :
  bind (emit e) f w = f tt (add_event e w).
Proof. reflexivity. Qed.

Lemma bind_ret {A B} (a : A) (f : A -> M B) (w : world) :
  bind (ret a) f w = f a w.
Proof. reflexivity. Qed.

Lemma bind_call {A B} (e : event) (r : result A) (f : A -> M B) (w : world) :
  bind (call e r) f w =
  match r with
  | Ok a => f a (add_event e w)
  | Raise x => (Some (Raise x), add_event e w)
  end.
Proof. unfold bind, call. destruct r; reflexivity. Qed.

Lemma bind_assoc {A B C} (m : M A) (f : A -> M B) (g : B -> M C) (w : world) :
  bind (bind m f) g w = bind m (fun a => bind (f a) g) w.
Proof.
  unfold bind. destruct (m w) as [[[a|e]|] w']; reflexivity.
Qed.

Lemma print_all_run (lines : list str) (w : world) :
  print_all lines w =
  (Some (Ok tt), {| fs := fs w; trace := trace w ++ map EPrint lines |}).
Proof.
  revert w; induction lines as [|l lines IH]; intros w; simpl.
  - unfold ret. rewrite app_nil_r, world_eta. reflexivity.
  - rewrite bind_print, IH. unfold add_event; simpl.
    rewrite <- app_assoc. reflexivity.
Qed.

Lemma count_total (c : counters) (r : str) : total (count c r) = S (total c).
Proof.
  unfold count, total.
  destruct (contains (u "Downloaded") r); [simpl; lia|].
  destruct (contains (u "Skipped") r); simpl; lia.
Qed.

(** The counters are chosen by searching the message, which ends with
    the query: the skipped message of a track whose title holds the word
    [Downloaded] is counted as a download.  Only the sum of the counters
    does not depend on the titles. *)
Lemma count_reads_the_query :
  count {| successful_downloads := 0; failed_downloads := 0; skipped_downloads := 0 |}
        (skipped_message (u "Band - Downloaded"))
  = {| successful_downloads := 1; failed_downloads := 0; skipped_downloads := 0 |}.
Proof. reflexivity. Qed.

(** The loop over the completed futures, when each holds a message. *)
Lemma process_completed_ok (completed : list (song_info * result str)) :
  Forall (fun tr => exists msg, snd tr = Ok msg) completed ->
  forall c w, exists c' w',
    process_completed completed c w = (Some (Ok c'), w')
    /\ total c' = total c + length completed
    /\ extends_trace is_chatter w w'.
Proof.
  induction 1 as [|[song r] completed [msg Hr] _ IH]; intros c w; simpl.
  - exists c, w. split; [reflexivity|]. split; [lia | apply extends_trace_refl].
  - simpl in Hr. subst r.
    unfold bind at 1. rewrite bind_print, bind_emit.
    destruct (IH (count c msg) (add_event (ESleep 500) (add_event (EPrint msg) w)))
      as (c' & w' & Hrun & Htot & Hext).
    exists c', w'. split; [exact Hrun|]. split.
    + rewrite Htot, count_total. lia.
    + eapply extends_trace_trans; [|exact Hext].
      eapply extends_trace_trans; apply extends_trace_event; reflexivity.
Qed.

(** The loop over the completed futures stops at the first future that
    holds an exception, which [future.result()] raises again. *)
Lemma process_completed_raise (song : song_info) (e : exn)
    (rest : list (song_info * result str)) (c : counters) (w : world) :
  process_completed ((song, Raise e) :: rest) c w = (Some (Raise e), w).
Proof. reflexivity. Qed.

(** ** The coordinator *)

Lemma as_completed_perm {A} (order : list nat) (futures : list A) :
  Permutation (Pool.as_completed order futures) futures.
Proof.
  revert futures; induction order as [|i order IH]; intros futures; simpl.
  - reflexivity.
  - destruct (nth_error futures i) as [f|] eqn:Hi; [|apply IH].
    apply perm_trans with (f :: Pool.remove_nth i futures).
    + apply perm_skip, IH.
    + symmetry. apply remove_nth_perm, Hi.
Qed.

Section Coordinator.

Variable E : env.
Variable self : SpotifyDownloader.

(** Without listing errors every future holds one of the four
    messages of its song, under every interleaving; the folder only
    grows and the trace is extended by events of the tasks. *)
Lemma execute_outcomes (max_workers : nat) (sched : list nat)
    (songs : list song_info) (w : world) :
  no_listing_error E songs ->
  Forall (fun tr => outcome_of (fst tr) (snd tr))
         (fst (Pool.execute max_workers sched (submitted E self songs) w))
  /\ extends is_per_track w (snd (Pool.execute max_workers sched (submitted E self songs) w)).
Proof.
  intros Hno.
  apply (execute_safe _ _ (extends is_per_track) (fun s r _ => outcome_of s r)
           (extends_refl _) (extends_trans _)).
  - intros; assumption.
  - unfold tasks_safe, submitted. apply Forall_forall. intros [s p] Hin.
    apply in_map_iff in Hin. destruct Hin as (song & [= <- <-] & Hin). simpl.
    apply (search_and_download_song_safe E self song (extends is_per_track)
             (fun s r _ => outcome_of s r) (extends_trans _)
             (fun w e H => extends_event _ e w H) w
             (fun _ w e f H => extends_file _ e f w H)).
    + intros e w' _ He. rewrite (Hno song Hin) in He. discriminate.
    + intros; constructor.
    + intros; constructor.
    + intros; constructor.
    + intros; constructor.
Qed.

End Coordinator.

Section CoordinatorClaims.

Variable E : env.
Variable self : SpotifyDownloader.

Lemma submitted_tags (songs : list song_info) :
  map fst (submitted E self songs) = songs.
Proof.
  unfold submitted. rewrite map_map. simpl. apply map_id.
Qed.

Lemma outcome_of_message (song : song_info) (r : result str) :
  outcome_of song r -> exists msg, r = Ok msg.
Proof. intros []; eauto. Qed.

(** Without listing errors the coordinator returns, with counters that
    sum to the number of songs, and ends with the summary. *)
Lemma download_all_songs_returns (sched : schedule) (songs : list song_info)
    (workers : nat) (w : world) :
  no_listing_error E songs ->
  exists c w',
    download_all_songs E sched self songs (S workers) w = (Some (Ok c), w')
    /\ total c = length songs
    /\ exists before, trace w' = before ++ map EPrint (summary_lines E self c).
Proof.
  intros Hno. unfold download_all_songs.
  rewrite !bind_print. unfold bind at 1.
  set (w1 := add_event _ (add_event _ (add_event _ w))).
  destruct (execute_outcomes E self (S workers) (interleaving sched) songs w1 Hno)
    as [Hout _].
  pose proof (execute_tags _ _ (S workers) (interleaving sched)
                (submitted E self songs) w1) as Hperm.
  rewrite submitted_tags in Hperm.
  destruct (Pool.execute (S workers) (interleaving sched) (submitted E self songs) w1)
    as [done w2]. simpl in Hout, Hperm.
  set (completed := Pool.as_completed (yield_order sched) done).
  assert (Hyield : Permutation completed done) by apply as_completed_perm.
  assert (Hok : Forall (fun tr => exists msg, snd tr = Ok msg) completed).
  { apply (Permutation_Forall (Permutation_sym Hyield)).
    eapply Forall_impl; [|exact Hout]. intros [s r]. apply outcome_of_message. }
  destruct (process_completed_ok completed Hok
              {| successful_downloads := 0; failed_downloads := 0;
                 skipped_downloads := 0 |} w2) as (c & w3 & Hrun & Htot & _).
  unfold bind at 1. rewrite Hrun.
  unfold bind at 1. rewrite print_all_run. unfold ret.
  eexists; eexists. split; [reflexivity|]. split.
  - rewrite Htot. apply Permutation_length in Hperm, Hyield.
    rewrite length_map in Hperm. simpl. congruence.
  - simpl. eexists. reflexivity.
Qed.

(** *** When a listing fails *)

(** Under every interleaving the future of a song holds the error of
    its listing when the listing fails, and one of the four messages
    of the song otherwise. *)
Lemma execute_futures (max_workers : nat) (sched : list nat)
    (songs : list song_info) (w : world) :
  Forall (fun tr => match scandir_error E (pattern_of (fst tr)) with
                    | Some e => snd tr = Raise e
                    | None => outcome_of (fst tr) (snd tr)
                    end)
         (fst (Pool.execute max_workers sched (submitted E self songs) w))
  /\ extends is_per_track w
       (snd (Pool.execute max_workers sched (submitted E self songs) w)).
Proof.
  apply (execute_safe _ _ (extends is_per_track)
           (fun s r _ => match scandir_error E (pattern_of s) with
                         | Some e => r = Raise e
                         | None => outcome_of s r
                         end)
           (extends_refl _) (extends_trans _)).
  - intros; assumption.
  - unfold tasks_safe, submitted. apply Forall_forall. intros [s p] Hin.
    apply in_map_iff in Hin. destruct Hin as (song & [= <- <-] & Hin). simpl.
    apply (search_and_download_song_safe E self song (extends is_per_track)
             (fun s r _ => match scandir_error E (pattern_of s) with
                           | Some e => r = Raise e
                           | None => outcome_of s r
                           end) (extends_trans _)
             (fun w e H => extends_event _ e w H) w
             (fun _ w e f H => extends_file _ e f w H)).
    + intros e w' _ He. rewrite He. reflexivity.
    + intros w' _ Hs _. rewrite Hs. constructor.
    + intros e w' (w1 & _ & Hs & _) _. rewrite Hs. constructor.
    + intros w' (w1 & _ & Hs & _) _. rewrite Hs. constructor.
    + intros w' url f (w1 & _ & Hs & _) _ _. rewrite Hs. constructor.
Qed.

(** The futures before the first one that holds an exception hold
    messages. *)
Lemma first_raise_split (completed : list (song_info * result str)) :
  (exists song e, In (song, Raise e) completed) ->
  exists pre song e rest,
    completed = map holding pre ++ (song, Raise e) :: rest.
Proof.
  induction completed as [|[s [msg|e]] completed IH]; intros (song & e0 & Hin).
  - destruct Hin.
  - destruct Hin as [Hin|Hin]; [discriminate Hin|].
    destruct IH as (pre & song' & e' & rest & ->); [eauto|].
    exists ((s, msg) :: pre), song', e', rest. reflexivity.
  - exists [], s, e, completed. reflexivity.
Qed.

(** The loop reports the messages it meets and stops at the first
    future that holds an exception. *)
Lemma process_completed_stops (pre : list (song_info * str)) (song : song_info)
    (e : exn) (rest : list (song_info * result str)) :
  forall c w,
    process_completed (map holding pre ++ (song, Raise e) :: rest) c w
    = (Some (Raise e),
       {| fs := fs w; trace := trace w ++ concat (map report (map snd pre)) |}).
Proof.
  induction pre as [|[s msg] pre IH]; intros c w.
  - cbn [map app concat]. rewrite process_completed_raise, app_nil_r, world_eta.
    reflexivity.
  - cbn [map app holding fst snd process_completed].
    unfold bind at 1. rewrite bind_print, bind_emit, IH.
    unfold add_event. cbn [fs trace concat report]. rewrite <- !app_assoc. reflexivity.
Qed.

Lemma outcome_is_no_summary_line (song : song_info) (msg : str) :
  outcome_of song (Ok msg) -> msg <> u "Download Summary:".
Proof.
  intros Hout Heq. apply (f_equal (fun l => hd 0%N l)) in Heq.
  inversion Hout; subst; discriminate Heq.
Qed.

(** When the listing fails for one of the songs, the coordinator ends
    with the error of such a listing, raised again by
    [future.result()], and has not printed the summary. *)
Lemma download_all_songs_listing_error (sched : schedule) (songs : list song_info)
    (workers : nat) (w : world) (e0 : exn) :
  listing_error E songs e0 ->
  exists e new w',
    download_all_songs E sched self songs (S workers) w = (Some (Raise e), w')
    /\ listing_error E songs e
    /\ trace w' = trace w ++ new
    /\ ~ In (EPrint (u "Download Summary:")) new.
Proof.
  intros (song0 & Hin0 & Hscan0). unfold download_all_songs.
  rewrite !bind_print. unfold bind at 1.
  set (w1 := add_event _ (add_event _ (add_event _ w))).
  destruct (execute_futures (S workers) (interleaving sched) songs w1) as [Hfut Hext].
  pose proof (execute_tags _ _ (S workers) (interleaving sched)
                (submitted E self songs) w1) as Hperm.
  rewrite submitted_tags in Hperm.
  destruct (Pool.execute (S workers) (interleaving sched) (submitted E self songs) w1)
    as [done w2]. cbn [fst snd] in Hfut, Hext, Hperm.
  pose proof (as_completed_perm (yield_order sched) done) as Hyield.
  set (completed := Pool.as_completed (yield_order sched) done) in *.
  assert (Hfut' : Forall (fun tr => match scandir_error E (pattern_of (fst tr)) with
                                    | Some e => snd tr = Raise e
                                    | None => outcome_of (fst tr) (snd tr)
                                    end) completed)
    by (apply (Permutation_Forall (Permutation_sym Hyield)); exact Hfut).
  assert (Htags : forall s r, In (s, r) completed -> In s songs).
  { intros s r Hsr. apply (Permutation_in _ Hperm).
    apply in_map_iff. exists (s, r). split; [reflexivity|].
    apply (Permutation_in _ Hyield), Hsr. }
  assert (Hraise : exists song e, In (song, Raise e) completed).
  { assert (H : In song0 (map fst completed)).
    { apply (Permutation_in song0 (Permutation_sym (Permutation_map fst Hyield))).
      apply (Permutation_in _ (Permutation_sym Hperm)), Hin0. }
    apply in_map_iff in H. destruct H as ([s r] & Hs & Hsr). cbn [fst] in Hs. subst s.
    pose proof (proj1 (Forall_forall _ _) Hfut' _ Hsr) as Hr. cbn [fst snd] in Hr.
    rewrite Hscan0 in Hr. subst r. eauto. }
  destruct (first_raise_split completed Hraise) as (pre & song & e & rest & Hsplit).
  rewrite Hsplit. unfold bind at 1. rewrite process_completed_stops. cbn [fst snd trace].
  assert (Hin : In (song, Raise e) completed)
    by (rewrite Hsplit; apply in_or_app; right; left; reflexivity).
  destruct Hext as [_ (tasks & Htrace & Htasks)].
  exists e, (map EPrint (header_lines E self (length songs)) ++ tasks
             ++ concat (map report (map snd pre))).
  eexists. split; [reflexivity|]. split; [|split].
  - exists song. split; [exact (Htags song (Raise e) Hin)|].
    pose proof (proj1 (Forall_forall _ _) Hfut' _ Hin) as Hr. cbn [fst snd] in Hr.
    destruct (scandir_error E (pattern_of song)) as [e'|].
    + injection Hr as ->. reflexivity.
    + inversion Hr.
  - cbn [trace]. rewrite Htrace. unfold w1, add_event. cbn [trace header_lines map].
    rewrite <- !app_assoc. reflexivity.
  - intros Hsum. apply in_app_or in Hsum. destruct Hsum as [Hsum|Hsum].
    { cbn [header_lines map In] in Hsum.
      destruct Hsum as [H|[H|[H|[]]]];
        apply (f_equal (fun ev => match ev with
                                  | EPrint l => nth 9 l 0%N
                                  | _ => 0%N
                                  end)) in H;
        vm_compute in H; discriminate H. }
    apply in_app_or in Hsum. destruct Hsum as [Hsum|Hsum].
    { apply (proj1 (forallb_forall _ _) Htasks) in Hsum. discriminate Hsum. }
    apply in_concat in Hsum. destruct Hsum as (l & Hl & Hsum).
    apply in_map_iff in Hl. destruct Hl as (msg & <- & Hmsg).
    apply in_map_iff in Hmsg. destruct Hmsg as ([s m] & Hm & Hsm). cbn [snd] in Hm.
    subst m. destruct Hsum as [H|[H|[]]]; [|discriminate H].
    assert (H' : msg = u "Download Summary:") by congruence.
    assert (Hin' : In (s, Ok msg) completed).
    { rewrite Hsplit. apply in_or_app. left.
      apply in_map_iff. exists (s, msg). split; [reflexivity | exact Hsm]. }
    pose proof (proj1 (Forall_forall _ _) Hfut' _ Hin') as Hr. cbn [fst snd] in Hr.
    destruct (scandir_error E (pattern_of s)); [discriminate Hr|].
    exact (outcome_is_no_summary_line s msg Hr H').
Qed.

(** C1, as amended.  When no listing of the download folder fails, then
    under every interleaving of the workers every submitted task
    completes exactly once with one of the four outcomes (skipped,
    downloaded, not found, error) of its song, and the coordinator
    returns after printing a summary whose three counters (downloaded,
    skipped, and failed for both not found and error) sum to the number
    of submitted songs.  When the listing fails for one of the songs,
    the task of that song raises, [future.result()] raises the error
    of such a listing again at line 158, and the coordinator ends with
    it: it returns no counters and prints no summary. *)
Theorem download_all_songs_total_accounting :
  forall (sched : schedule) (songs : list song_info) (workers : nat) (w : world),
    (no_listing_error E songs ->
     (forall w1,
        Permutation
          (map fst (fst (Pool.execute (S workers) (interleaving sched)
                           (submitted E self songs) w1)))
          songs
        /\ Forall (fun tr => outcome_of (fst tr) (snd tr))
                  (fst (Pool.execute (S workers) (interleaving sched)
                          (submitted E self songs) w1)))
     /\ exists c w',
          download_all_songs E sched self songs (S workers) w = (Some (Ok c), w')
          /\ successful_downloads c + skipped_downloads c + failed_downloads c
             = length songs
          /\ exists before, trace w' = before ++ map EPrint (summary_lines E self c))
    /\ (forall e0,
          listing_error E songs e0 ->
          exists e new,
            fst (download_all_songs E sched self songs (S workers) w) = Some (Raise e)
            /\ listing_error E songs e
            /\ trace (snd (download_all_songs E sched self songs (S workers) w))
               = trace w ++ new
            /\ ~ In (EPrint (u "Download Summary:")) new).
Proof.
  intros sched songs workers w. split.
  - intros Hno. split.
    + intros w1. split.
      * rewrite <- (submitted_tags songs) at 2. apply execute_tags.
      * apply execute_outcomes, Hno.
    + apply download_all_songs_returns, Hno.
  - intros e0 He0.
    destruct (download_all_songs_listing_error sched songs workers w e0 He0)
      as (e & new & w' & Hrun & He & Htrace & Hsum).
    exists e, new. rewrite Hrun. cbn [fst snd].
    split; [reflexivity|]. split; [exact He|]. split; [exact Htrace | exact Hsum].
Qed.


End CoordinatorClaims.

(** A run of the coordinator on two tracks with working collaborators:
    no listing fails there and the counters sum to two.  A run on the
    track of the specification when the listing fails: the coordinator
    ends with the error of a listing. *)
Lemma download_all_songs_total_accounting_witness :
  (no_listing_error (Sample.working []) [Sample.track; Sample.live_track]
   /\ exists c w',
        download_all_songs (Sample.working []) Sample.taking_turns Sample.downloader
          [Sample.track; Sample.live_track] 3 Sample.empty_world = (Some (Ok c), w')
        /\ successful_downloads c + skipped_downloads c + failed_downloads c = 2)
  /\ (listing_error Sample.listing_fails [Sample.track] Sample.too_many_open_files
      /\ exists e,
           fst (download_all_songs Sample.listing_fails Sample.one_by_one
                  Sample.downloader [Sample.track] 3 Sample.empty_world)
           = Some (Raise e)
           /\ listing_error Sample.listing_fails [Sample.track] e).
Proof.
  assert (H : no_listing_error (Sample.working []) [Sample.track; Sample.live_track])
    by (intros song _; reflexivity).
  assert (H' : listing_error Sample.listing_fails [Sample.track]
                 Sample.too_many_open_files)
    by (exists Sample.track; split; [left|]; reflexivity).
  split; (split; [assumption|]).
  - destruct (download_all_songs_total_accounting (Sample.working []) Sample.downloader
                Sample.taking_turns [Sample.track; Sample.live_track] 2 Sample.empty_world)
      as [Hok _].
    destruct (Hok H) as [_ (c & w' & Hrun & Hsum & _)].
    exists c, w'. split; [exact Hrun | exact Hsum].
  - destruct (download_all_songs_total_accounting Sample.listing_fails Sample.downloader
                Sample.one_by_one [Sample.track] 2 Sample.empty_world)
      as [_ Hfails].
    destruct (Hfails Sample.too_many_open_files H') as (e & new & Hrun & He & _).
    exists e. split; [exact Hrun | exact He].
Defined.

(** C1 as stated fails: when listing the download folder raises, the task
    raises, [future.result()] raises again at line 158, and the
    coordinator ends without counters. *)
Lemma total_accounting_counterexample :
  fst (download_all_songs Sample.listing_fails Sample.one_by_one Sample.downloader
         [Sample.track] 3 Sample.empty_world)
  = Some (Raise Sample.too_many_open_files)
  /\ ~ (exists c w',
          download_all_songs Sample.listing_fails Sample.one_by_one Sample.downloader
            [Sample.track] 3 Sample.empty_world = (Some (Ok c), w')
          /\ successful_downloads c + skipped_downloads c + failed_downloads c = 1).
Proof.
  split; [vm_compute; reflexivity|].
  intros (c & w' & H & _).
  apply (f_equal fst) in H. vm_compute in H. discriminate.
Qed.



(** ** Not found *)

(** C7.  When the task of a track has searched (the search event is among
    the events the task added to the trace) and the search returned no
    entry, the task returns the not-found message, the download folder is
    as it was, and the task has neither called the download nor written a
    file. *)
Theorem not_found_writes_nothing :
  forall (E : env) (self : SpotifyDownloader) (song : song_info) (w : world)
         (i : info) (new : list event),
    trace (snd (run (search_and_download_song E self song) w)) = trace w ++ new ->
    In (EExtractInfo (search_query_of song)) new ->
    extract_info E (search_query_of song) = Ok i ->
    entries i = None \/ entries i = Some [] ->
    fst (run (search_and_download_song E self song) w)
    = Ok (not_found_message (query_of song))
    /\ fs (snd (run (search_and_download_song E self song) w)) = fs w
    /\ existsb is_download new = false
    /\ existsb is_write new = false.
Proof.
  intros E self song w i new Htrace Hin Hsearch Hempty.
  rewrite run_search_and_download_song in *. cbv zeta in *.
  destruct (scandir_error E (pattern_of song)).
  { simpl in Htrace. apply app_inv_head in Htrace. subst new.
    destruct Hin as [Hin|[]]. discriminate. }
  destruct (glob (fs w) (pattern_of song)).
  2:{ simpl in Htrace. apply app_inv_head in Htrace. subst new.
      destruct Hin as [Hin|[]]. discriminate. }
  rewrite Hsearch in *.
  assert (Hnew : new = [EGlob (download_folder self) (pattern_of song);
                        EExtractInfo (search_query_of song)]).
  { destruct Hempty as [He|He]; rewrite He in Htrace; simpl in Htrace;
      rewrite <- app_assoc in Htrace; apply app_inv_head in Htrace;
      symmetry; exact Htrace. }
  subst new.
  destruct Hempty as [He|He]; rewrite He; repeat split.
Qed.

(** The scenario of the specification: the track [Song] by [Band], no
    search result. *)
Lemma not_found_writes_nothing_witness :
  fst (run (search_and_download_song Sample.nothing_found Sample.downloader Sample.track)
           Sample.empty_world)
  = Ok (not_found_message (u "Band - Song"))
  /\ fs (snd (run (search_and_download_song Sample.nothing_found Sample.downloader
                     Sample.track) Sample.empty_world)) = [].
Proof.
  destruct (not_found_writes_nothing Sample.nothing_found Sample.downloader Sample.track
              Sample.empty_world {| entries := Some [] |}
              [EGlob (u "Downloaded_Music") (u "Band - Song*");
               EExtractInfo (u "ytsearch1:Band - Song")])
    as (H1 & H2 & _).
  - reflexivity.
  - right; left; reflexivity.
  - reflexivity.
  - right; reflexivity.
  - split; [exact H1 | exact H2].
Defined.

(** ** Skip on exists *)

Lemma glob_nonempty (entries : list str) (identifier f : str) :
  plain identifier = true ->
  In f entries -> startswith identifier f = true ->
  glob entries (identifier ++ u "*") <> [].
Proof.
  intros Hp Hin Hf Hglob.
  assert (H : existence_check entries identifier = false)
    by (unfold existence_check; rewrite Hglob; reflexivity).
  rewrite existence_check_plain in H by assumption.
  assert (H' : existsb (startswith identifier) entries = true)
    by (apply existsb_exists; eauto).
  congruence.
Qed.

Lemma bracket_free_plain (song : song_info) :
  bracket_free song -> plain (safe_filename_of song) = true.
Proof.
  unfold bracket_free, safe_filename_of. intros H.
  apply forallb_forall. intros c Hc.
  pose proof Hc as Hc'. apply sanitize_filename_In in Hc'. destruct Hc' as [_ Hr].
  unfold plain_char. rewrite negb_true_iff, !orb_false_iff, !N.eqb_neq.
  repeat split; intros ->; [apply Hr | apply Hr | apply H, Hc]; simpl; auto 10.
Qed.

Section SkipOnExists.

Variable self : SpotifyDownloader.

(** A task that returns the downloaded message has left a file in the
    folder, and no task removes an entry: when the downloads name
    their files by the identifier, then after any run, for every
    interleaving, the folder holds for each downloaded song an entry
    that starts with its identifier. *)
Lemma execute_downloaded_files (E : env) (max_workers : nat) (sched : list nat)
    (songs : list song_info) (w : world) :
  (forall song, In song songs -> keeps_identifier E self song) ->
  Forall (fun tr => snd tr = Ok (downloaded_message (query_of (fst tr))) ->
                    exists f, In f (fs (snd (Pool.execute max_workers sched
                                               (submitted E self songs) w)))
                              /\ startswith (safe_filename_of (fst tr)) f = true)
         (fst (Pool.execute max_workers sched (submitted E self songs) w)).
Proof.
  intros Hkeeps.
  apply (execute_safe _ _ (fun a b => incl (fs a) (fs b))
           (fun s r w' => r = Ok (downloaded_message (query_of s)) ->
                          exists f, In f (fs w')
                                    /\ startswith (safe_filename_of s) f = true)).
  - intros a. apply incl_refl.
  - intros a b c. apply incl_tran.
  - intros s r a b H Hle Hr. destruct (H Hr) as (f & Hin & Hpre). exists f.
    split; [apply Hle, Hin | exact Hpre].
  - unfold tasks_safe, submitted. apply Forall_forall. intros [s p] Hin.
    apply in_map_iff in Hin. destruct Hin as (song & [= <- <-] & Hin). simpl.
    apply (search_and_download_song_safe E self song (fun a b => incl (fs a) (fs b))).
    + intros a b c. apply incl_tran.
    + intros a e _. apply incl_refl.
    + intros _ a e f _. simpl. apply create_incl.
    + intros e a _ _ H. discriminate H.
    + intros a _ _ _ H. discriminate H.
    + intros e a _ _ H. discriminate H.
    + intros a _ _ H. discriminate H.
    + intros a url f _ _ Hd _. exists f. split; [simpl; apply create_In|].
      exact (Hkeeps song Hin url f Hd).
Qed.

(** When the folder holds, for every song, an entry that starts with
    its identifier, every task skips, under every interleaving, and the
    folder is left as it was. *)
Lemma execute_all_skipped (E : env) (max_workers : nat) (sched : list nat)
    (songs : list song_info) (w : world) :
  no_listing_error E songs ->
  Forall bracket_free songs ->
  (forall song, In song songs ->
     exists f, In f (fs w) /\ startswith (safe_filename_of song) f = true) ->
  all_skipped (fst (Pool.execute max_workers sched (submitted E self songs) w))
  /\ fs (snd (Pool.execute max_workers sched (submitted E self songs) w)) = fs w.
Proof.
  intros Hno Hfree Hfiles.
  apply (execute_safe _ _ (fun a b => fs b = fs a)
           (fun s r _ => r = Ok (skipped_message (query_of s)))).
  - reflexivity.
  - intros a b c H1 H2. congruence.
  - intros; assumption.
  - unfold tasks_safe, submitted. apply Forall_forall. intros [s p] Hin.
    apply in_map_iff in Hin. destruct Hin as (song & [= <- <-] & Hin). simpl.
    assert (Hfound : forall a, fs a = fs w -> glob (fs a) (pattern_of song) <> []).
    { intros a Ha. destruct (Hfiles song Hin) as (f & Hf & Hpre).
      rewrite Ha. apply glob_nonempty with f; [|assumption|assumption].
      apply bracket_free_plain.
      apply (proj1 (Forall_forall _ _) Hfree), Hin. }
    apply (search_and_download_song_safe E self song (fun a b => fs b = fs a)).
    + intros a b c H1 H2. congruence.
    + reflexivity.
    + intros (a & Ha & _ & Hglob). exfalso. exact (Hfound a Ha Hglob).
    + intros e a _ He. rewrite (Hno song Hin) in He. discriminate.
    + reflexivity.
    + intros e a (b & Hb & _ & Hglob). exfalso. exact (Hfound b Hb Hglob).
    + intros a (b & Hb & _ & Hglob). exfalso. exact (Hfound b Hb Hglob).
    + intros a url f (b & Hb & _ & Hglob). exfalso. exact (Hfound b Hb Hglob).
Qed.

(** C6, as amended.  For a track whose identifier holds no opening
    bracket, when the listing of the download folder succeeds and the
    folder holds an entry whose name starts with the identifier, the
    task returns the skipped message and does nothing else.
    Consequently, after a run in which every task returned the
    downloaded message and the downloads named their files by the
    identifiers (each name starts with the identifier, as yt-dlp names
    them when the identifier, spliced into the output template of line
    126, holds no percent sign), a second run on the same tracks, all
    without opening bracket in their identifiers and without listing
    error, ends under every interleaving with the skipped message for
    every track and leaves the folder as it was. *)
Theorem skip_on_exists :
  forall (E : env),
    (forall song w f,
       scandir_error E (pattern_of song) = None ->
       bracket_free song ->
       In f (fs w) -> startswith (safe_filename_of song) f = true ->
       run (search_and_download_song E self song) w
       = (Ok (skipped_message (query_of song)),
          add_event (EGlob (download_folder self) (pattern_of song)) w))
    /\ (forall E1 songs workers1 sched1 w0 workers2 sched2 w2,
          Forall bracket_free songs ->
          no_listing_error E songs ->
          (forall song, In song songs -> keeps_identifier E1 self song) ->
          all_downloaded
            (fst (Pool.execute workers1 sched1 (submitted E1 self songs) w0)) ->
          incl (fs (snd (Pool.execute workers1 sched1 (submitted E1 self songs) w0)))
               (fs w2) ->
          all_skipped (fst (Pool.execute workers2 sched2 (submitted E self songs) w2))
          /\ Permutation
               (map fst (fst (Pool.execute workers2 sched2 (submitted E self songs) w2)))
               songs
          /\ fs (snd (Pool.execute workers2 sched2 (submitted E self songs) w2)) = fs w2).
Proof.
  intros E. split.
  - intros song w f Hscan Hfree Hin Hpre.
    rewrite run_search_and_download_song. cbv zeta. rewrite Hscan.
    pose proof (glob_nonempty (fs w) (safe_filename_of song) f
                  (bracket_free_plain song Hfree) Hin Hpre) as Hglob.
    fold (pattern_of song) in Hglob.
    destruct (glob (fs w) (pattern_of song)); [contradiction | reflexivity].
  - intros E1 songs workers1 sched1 w0 workers2 sched2 w2 Hfree Hno Hkeeps Hall Hincl.
    assert (Hfiles : forall song, In song songs ->
              exists f, In f (fs w2) /\ startswith (safe_filename_of song) f = true).
    { intros song Hin.
      pose proof (execute_downloaded_files E1 workers1 sched1 songs w0 Hkeeps) as Hd.
      pose proof (execute_tags _ _ workers1 sched1 (submitted E1 self songs) w0) as Hp.
      rewrite (submitted_tags E1 self) in Hp.
      assert (Hin' : In song (map fst (fst (Pool.execute workers1 sched1
                                              (submitted E1 self songs) w0))))
        by (eapply Permutation_in; [symmetry; exact Hp | exact Hin]).
      apply in_map_iff in Hin'. destruct Hin' as ([s r] & Hs & Htr). simpl in Hs. subst s.
      pose proof (proj1 (Forall_forall _ _) Hd _ Htr) as Hfile.
      pose proof (proj1 (Forall_forall _ _) Hall _ Htr) as Hmsg.
      destruct (Hfile Hmsg) as (f & Hf & Hpre). simpl in Hf, Hpre.
      exists f. split; [apply Hincl, Hf | exact Hpre]. }
    destruct (execute_all_skipped E workers2 sched2 songs w2 Hno Hfree Hfiles)
      as [Hskip Hfs].
    split; [exact Hskip|]. split; [|exact Hfs].
    rewrite <- (submitted_tags E self songs) at 2. apply execute_tags.
Qed.

End SkipOnExists.

(** Two runs on the track of the specification: the first downloads it,
    the second, under another interleaving, skips it. *)
Lemma skip_on_exists_witness :
  all_skipped
    (fst (Pool.execute 3 [1; 0; 0]
            (submitted (Sample.working []) Sample.downloader [Sample.track])
            (snd (Pool.execute 3 [0; 0; 0; 0]
                    (submitted (Sample.working []) Sample.downloader [Sample.track])
                    Sample.empty_world))))
  /\ run (search_and_download_song (Sample.working []) Sample.downloader Sample.track)
         {| fs := [u "Band - Song.mp3"]; trace := [] |}
     = (Ok (skipped_message (u "Band - Song")),
        {| fs := [u "Band - Song.mp3"];
           trace := [EGlob (u "Downloaded_Music") (u "Band - Song*")] |}).
Proof.
  destruct (skip_on_exists Sample.downloader (Sample.working [])) as [Htask Hruns].
  assert (Hfree : bracket_free Sample.track).
  { intros H. vm_compute in H.
    repeat (destruct H as [H|H]; [discriminate H|]). exact H. }
  split.
  - apply (Hruns (Sample.working []) [Sample.track] 3 [0; 0; 0; 0] Sample.empty_world
             3 [1; 0; 0]).
    + constructor; [exact Hfree | constructor].
    + intros song _. reflexivity.
    + intros song Hin url f Hd. injection Hd as <-.
      destruct Hin as [<-|[]]. vm_compute. reflexivity.
    + vm_compute. repeat constructor.
    + apply incl_refl.
  - apply (Htask Sample.track {| fs := [u "Band - Song.mp3"]; trace := [] |}
             (u "Band - Song.mp3")).
    + reflexivity.
    + exact Hfree.
    + left; reflexivity.
    + reflexivity.
Defined.

(** C6 as stated fails.  (1) The folder holds the file that the download
    of [Song [Live]] wrote, its name starts with the identifier of the
    track, the listing succeeds, and the task downloads again.  (2) So a
    second run after a fully successful first run does not skip that
    track.  (3) When the listing raises, the task of a track whose file
    is in the folder raises.  (4) The title [100%% Real] has no bracket,
    but the output template turns its two percent signs into one: the
    first run leaves [Band - 100% Real.mp3], whose name does not start
    with the identifier, and the second run downloads again. *)
Lemma skip_on_exists_counterexample :
  (let w := {| fs := [u "Band - Song [Live].mp3"]; trace := [] |} in
   startswith (safe_filename_of Sample.live_track) (u "Band - Song [Live].mp3") = true
   /\ fst (run (search_and_download_song (Sample.working []) Sample.downloader
                  Sample.live_track) w)
      = Ok (downloaded_message (u "Band - Song [Live]")))
  /\ (let first := Pool.execute 3 []
                     (submitted (Sample.working []) Sample.downloader [Sample.live_track])
                     Sample.empty_world in
      all_downloaded (fst first)
      /\ fst (Pool.execute 3 []
                (submitted (Sample.working []) Sample.downloader [Sample.live_track])
                (snd first))
         = [(Sample.live_track, Ok (downloaded_message (u "Band - Song [Live]")))]
      /\ ~ all_skipped
             (fst (Pool.execute 3 []
                     (submitted (Sample.working []) Sample.downloader [Sample.live_track])
                     (snd first))))
  /\ (let w := {| fs := [u "Band - Song.mp3"]; trace := [] |} in
      startswith (safe_filename_of Sample.track) (u "Band - Song.mp3") = true
      /\ fst (run (search_and_download_song Sample.listing_fails Sample.downloader
                     Sample.track) w)
         = Raise Sample.too_many_open_files)
  /\ (let first := Pool.execute 3 []
                     (submitted (Sample.working []) Sample.downloader
                        [Sample.percent_track])
                     Sample.empty_world in
      bracket_free Sample.percent_track
      /\ all_downloaded (fst first)
      /\ fs (snd first) = [u "Band - 100% Real.mp3"]
      /\ fst (Pool.execute 3 []
                (submitted (Sample.working []) Sample.downloader [Sample.percent_track])
                (snd first))
         = [(Sample.percent_track, Ok (downloaded_message (u "Band - 100%% Real")))]).
Proof.
  split; [split; vm_compute; reflexivity|].
  split; [|split].
  - split; [vm_compute; repeat constructor|].
    split; [vm_compute; reflexivity|].
    intros H. apply Forall_inv in H. vm_compute in H. discriminate H.
  - split; vm_compute; reflexivity.
  - split; [|split; [|split]].
    + intros H. vm_compute in H.
      repeat (destruct H as [H|H]; [discriminate H|]). exact H.
    + vm_compute. repeat constructor.
    + vm_compute. reflexivity.
    + vm_compute. reflexivity.
Qed.

(** ** The fetch *)

Lemma page_requests_app (t1 t2 : list event) :
  page_requests (t1 ++ t2) = page_requests t1 ++ page_requests t2.
Proof.
  induction t1 as [|e t1 IH]; [reflexivity|].
  destruct e; simpl; rewrite IH; reflexivity.
Qed.

Lemma offsets_shift (limit offset n : nat) :
  (limit, offset) :: map (fun i => (limit, offset + limit + i * limit)) (seq 0 n)
  = map (fun i => (limit, offset + i * limit)) (seq 0 (S n)).
Proof.
  rewrite <- cons_seq, <- seq_shift, map_cons, map_map.
  f_equal; [f_equal; lia|].
  apply map_ext. intros i. f_equal. simpl. lia.
Qed.

Section Fetch.

Variable E : env.

(** The loop, started at [offset] with [acc] collected so far, when the
    API serves the non-empty [pages] and then [last], an empty page or
    an error. *)
Lemma fetch_loop_serves (limit : nat) (last : result (list item))
    (pages : list (list item)) :
  forall (fuel offset : nat) (acc : list song_info) (w : world),
    (forall i page, nth_error pages i = Some page ->
       page <> [] /\ current_user_saved_tracks E limit (offset + i * limit) = Ok page) ->
    current_user_saved_tracks E limit (offset + length pages * limit) = last ->
    (last = Ok [] \/ exists e, last = Raise e) ->
    length pages < fuel ->
    exists w',
      fetch_loop E fuel limit offset acc w
      = (Some match last with
              | Ok _ => Ok (acc ++ map song_of_item (concat pages))
              | Raise e => Raise e
              end, w')
      /\ extends_trace is_fetch w w'
      /\ page_requests (trace w')
         = page_requests (trace w)
           ++ map (fun i => (limit, offset + i * limit)) (seq 0 (S (length pages))).
Proof.
  induction pages as [|page pages IH]; intros fuel offset acc w Hpages Hlast Hshape Hfuel.
  - destruct fuel as [|fuel]; [simpl in Hfuel; lia|].
    simpl in Hlast. rewrite Nat.add_0_r in Hlast.
    simpl fetch_loop. rewrite bind_call, Hlast.
    exists (add_event (ESavedTracks limit offset) w).
    split; [|split].
    + destruct Hshape as [->|[e ->]]; [|reflexivity].
      unfold ret. simpl. rewrite app_nil_r. reflexivity.
    + apply extends_trace_event. reflexivity.
    + simpl. rewrite page_requests_app. simpl. rewrite Nat.add_0_r. reflexivity.
  - destruct fuel as [|fuel]; [simpl in Hfuel; lia|].
    destruct (Hpages 0 page eq_refl) as [Hne Hfirst].
    simpl in Hfirst. rewrite Nat.add_0_r in Hfirst.
    simpl fetch_loop. rewrite bind_call, Hfirst.
    destruct page as [|it page]; [contradiction|].
    rewrite bind_print.
    set (w1 := add_event (EPrint _) (add_event (ESavedTracks limit offset) w)).
    destruct (IH fuel (offset + limit) (acc ++ map song_of_item (it :: page)) w1)
      as (w' & Hrun & Hext & Hreq).
    + intros i p Hi. destruct (Hpages (S i) p Hi) as [Hp Hserve].
      split; [exact Hp|]. rewrite <- Hserve. f_equal. simpl. lia.
    + rewrite <- Hlast. f_equal. simpl. lia.
    + exact Hshape.
    + simpl in Hfuel. lia.
    + exists w'. split; [|split].
      * rewrite Hrun. f_equal. f_equal.
        destruct last; [|reflexivity].
        f_equal. change (concat ((it :: page) :: pages)) with ((it :: page) ++ concat pages).
        rewrite map_app, app_assoc. reflexivity.
      * eapply extends_trace_trans; [|exact Hext].
        eapply extends_trace_trans; apply extends_trace_event; reflexivity.
      * rewrite Hreq. unfold w1. simpl trace.
        rewrite !page_requests_app. simpl page_requests.
        rewrite app_nil_r, <- app_assoc. f_equal.
        exact (offsets_shift limit offset (S (length pages))).
Qed.

(** Conversely, a catalog that the loop returns is made of all the
    pages up to the first empty one, none of them dropped and no
    request having failed. *)
Lemma fetch_loop_returns (limit : nat) :
  forall (fuel offset : nat) (acc : list song_info) (w : world)
         (catalog : list song_info) (w' : world),
    fetch_loop E fuel limit offset acc w = (Some (Ok catalog), w') ->
    exists pages,
      (forall i page, nth_error pages i = Some page ->
         page <> [] /\ current_user_saved_tracks E limit (offset + i * limit) = Ok page)
      /\ current_user_saved_tracks E limit (offset + length pages * limit) = Ok []
      /\ catalog = acc ++ map song_of_item (concat pages)
      /\ length pages < fuel.
Proof.
  induction fuel as [|fuel IH]; intros offset acc w catalog w' Hrun.
  - discriminate Hrun.
  - simpl fetch_loop in Hrun. rewrite bind_call in Hrun.
    destruct (current_user_saved_tracks E limit offset) as [[|it page]|e] eqn:Hpage.
    + injection Hrun as <- _. exists []. simpl.
      rewrite Nat.add_0_r, app_nil_r.
      split; [|split; [exact Hpage | split; [reflexivity | lia]]].
      intros [|i] p Hi; discriminate Hi.
    + rewrite bind_print in Hrun.
      destruct (IH _ _ _ _ _ Hrun) as (pages & Hpages & Hlast & Hcat & Hfuel).
      exists ((it :: page) :: pages). split; [|split; [|split]].
      * intros [|i] p Hi; simpl in Hi.
        -- injection Hi as <-. split; [discriminate|].
           simpl. rewrite Nat.add_0_r. exact Hpage.
        -- destruct (Hpages i p Hi) as [Hp Hserve]. split; [exact Hp|].
           rewrite <- Hserve. f_equal. simpl. lia.
      * rewrite <- Hlast. f_equal. simpl. lia.
      * rewrite Hcat.
        change (concat ((it :: page) :: pages)) with ((it :: page) ++ concat pages).
        rewrite map_app, app_assoc. reflexivity.
      * simpl. lia.
    + discriminate Hrun.
Qed.

(** No truncated catalog: what [get_liked_songs] returns is the whole
    sequence of pages that the API served before its first empty
    page. *)
Lemma get_liked_songs_returns (fuel : nat) (self : SpotifyDownloader) (w : world)
    (catalog : list song_info) (w' : world) :
  get_liked_songs E fuel self w = (Some (Ok catalog), w') ->
  exists pages,
    serves E 50 pages (Ok [])
    /\ catalog = map song_of_item (concat pages)
    /\ length pages < fuel.
Proof.
  unfold get_liked_songs. destruct (sp self); [|discriminate].
  rewrite bind_print. unfold bind at 1.
  destruct (fetch_loop E fuel 50 0 [] _) as [[[liked|e]|] w1] eqn:Hloop;
    try discriminate.
  rewrite bind_print. unfold ret. intros [= <- _].
  destruct (fetch_loop_returns 50 _ _ _ _ _ _ Hloop)
    as (pages & Hpages & Hlast & Hcat & Hfuel).
  exists pages. split; [split|split]; assumption.
Qed.

Lemma length_concat_sum {A} (l : list (list A)) :
  length (concat l) = list_sum (map (@length A) l).
Proof.
  induction l as [|x l IH]; [reflexivity|].
  simpl. rewrite length_app, IH. reflexivity.
Qed.

(** C5.  When the session is there and the API serves non-empty pages
    at offsets 0, 50, 100, ... and then an empty page, then with fuel
    for one more request than there are pages [get_liked_songs]
    returns; its requests are exactly those of offsets 0, 50, ..., up
    to and including the first one answered by an empty page, each with
    limit 50; the catalog it returns is the concatenation of the pages
    in request order, each item projected to its song, so its length is
    the sum of the sizes of the pages. *)
Theorem get_liked_songs_pagination :
  forall (self : SpotifyDownloader) (s : spotify) (pages : list (list item))
         (fuel : nat) (w : world),
    sp self = Some s ->
    serves E 50 pages (Ok []) ->
    length pages < fuel ->
    exists w',
      get_liked_songs E fuel self w
      = (Some (Ok (map song_of_item (concat pages))), w')
      /\ page_requests (trace w')
         = page_requests (trace w)
           ++ map (fun i => (50, i * 50)) (seq 0 (S (length pages)))
      /\ length (map song_of_item (concat pages)) = list_sum (map (@length item) pages)
      /\ fs w' = fs w.
Proof.
  intros self s pages fuel w Hsp [Hpages Hlast] Hfuel.
  unfold get_liked_songs. rewrite Hsp. rewrite bind_print.
  destruct (fetch_loop_serves 50 (Ok []) pages fuel 0 []
              (add_event (EPrint (u "Fetching liked songs from Spotify...")) w))
    as (w' & Hrun & Hext & Hreq); auto.
  unfold bind at 1. rewrite Hrun. simpl app. rewrite bind_print. unfold ret.
  eexists. split; [reflexivity|]. split; [|split].
  - simpl trace. rewrite page_requests_app, Hreq. simpl trace.
    rewrite page_requests_app. simpl. rewrite !app_nil_r. reflexivity.
  - rewrite length_map. apply length_concat_sum.
  - simpl. destruct Hext as [Hfs _]. rewrite Hfs. reflexivity.
Qed.

End Fetch.

(** A library of three tracks served as a page of two and a page of one:
    three requests, at offsets 0, 50 and 100, and a catalog of three
    songs in page order. *)
Lemma get_liked_songs_pagination_witness :
  exists w',
    get_liked_songs
      (Sample.working [[Sample.track_item; Sample.duet_item]; [Sample.track_item]])
      5 Sample.downloader Sample.empty_world
    = (Some (Ok [song_of_item Sample.track_item; song_of_item Sample.duet_item;
                 song_of_item Sample.track_item]), w')
    /\ page_requests (trace w') = [(50, 0); (50, 50); (50, 100)].
Proof.
  destruct (get_liked_songs_pagination
              (Sample.working [[Sample.track_item; Sample.duet_item]; [Sample.track_item]])
              Sample.downloader
              (Spotify Sample.CLIENT_ID Sample.CLIENT_SECRET DEFAULT_REDIRECT_URI
                 (u "user-library-read"))
              [[Sample.track_item; Sample.duet_item]; [Sample.track_item]]
              5 Sample.empty_world) as (w' & Hrun & Hreq & _).
  - reflexivity.
  - split; [|reflexivity].
    intros [|[|i]] page Hi; simpl in Hi;
      [| |destruct i; discriminate Hi];
      injection Hi as <-; split; try discriminate; reflexivity.
  - simpl. lia.
  - exists w'. split; [exact Hrun | exact Hreq].
Defined.

(** ** What a computation adds to the trace *)

Lemma extends_of_trace (P : event -> bool) (w w' : world) :
  extends_trace P w w' -> extends P w w'.
Proof. intros [Hfs H]. split; [rewrite Hfs; apply incl_refl | exact H]. Qed.


Lemma produces_ret {A} (P : event -> bool) (a : A) : produces P (ret a).
Proof. intros w. apply extends_refl. Qed.

Lemma produces_raise {A} (P : event -> bool) (e : exn) : produces P (@raise A e).
Proof. intros w. apply extends_refl. Qed.

Lemma produces_emit (P : event -> bool) (e : event) : P e = true -> produces P (emit e).
Proof. intros H w. apply extends_event, H. Qed.

Lemma produces_print (P : event -> bool) (line : str) :
  P (EPrint line) = true -> produces P (print line).
Proof. apply produces_emit. Qed.

Lemma produces_call {A} (P : event -> bool) (e : event) (r : result A) :
  P e = true -> produces P (call e r).
Proof. intros H w. apply extends_event, H. Qed.

Lemma produces_bind {A B} (P : event -> bool) (m : M A) (f : A -> M B) :
  produces P m -> (forall a, produces P (f a)) -> produces P (bind m f).
Proof.
  intros Hm Hf w. unfold bind. specialize (Hm w).
  destruct (m w) as [[[a|e]|] w']; simpl in *; try exact Hm.
  eapply extends_trans; [exact Hm | apply Hf].
Qed.

Lemma produces_try_except {A} (P : event -> bool) (body : M A) (handler : exn -> M A) :
  produces P body -> (forall e, produces P (handler e)) ->
  produces P (try_except body handler).
Proof.
  intros Hm Hh w. unfold try_except. specialize (Hm w).
  destruct (body w) as [[[a|e]|] w']; simpl in *; try exact Hm.
  eapply extends_trans; [exact Hm | apply Hh].
Qed.

Lemma produces_print_all (P : event -> bool) (lines : list str) :
  (forall l, P (EPrint l) = true) -> produces P (print_all lines).
Proof.
  intros H. induction lines as [|l lines IH]; simpl.
  - apply produces_ret.
  - apply produces_bind; [apply produces_print, H | intros _; exact IH].
Qed.




(** ** [main] *)

Section Main.

Variable E : env.
Variables CLIENT_ID CLIENT_SECRET : str.
Variable fuel : nat.
Variable sched : schedule.

Hypothesis configured : str_eqb CLIENT_ID PLACEHOLDER_CLIENT_ID = false.
Hypothesis folder_made : mkdir E (u "Downloaded_Music") = Ok tt.

(** [get_liked_songs] when the API serves [pages] and then [last]. *)
Lemma get_liked_songs_serves (self : SpotifyDownloader) (s : spotify)
    (pages : list (list item)) (last : result (list item)) (w : world) :
  sp self = Some s ->
  serves E 50 pages last ->
  (last = Ok [] \/ exists e, last = Raise e) ->
  length pages < fuel ->
  exists w',
    get_liked_songs E fuel self w
    = (Some match last with
            | Ok _ => Ok (map song_of_item (concat pages))
            | Raise e => Raise e
            end, w')
    /\ extends_trace is_fetch w w'.
Proof.
  intros Hsp [Hpages Hlast] Hshape Hfuel.
  unfold get_liked_songs. rewrite Hsp, bind_print.
  destruct (fetch_loop_serves E 50 last pages fuel 0 []
              (add_event (EPrint (u "Fetching liked songs from Spotify...")) w))
    as (w' & Hrun & Hext & _); auto.
  unfold bind at 1. rewrite Hrun.
  assert (Hstart : extends_trace is_fetch w w').
  { eapply extends_trace_trans; [|exact Hext]. apply extends_trace_event. reflexivity. }
  destruct Hshape as [->|[e ->]].
  - rewrite bind_print. unfold ret. eexists. split; [reflexivity|].
    eapply extends_trace_trans; [exact Hstart|]. apply extends_trace_event. reflexivity.
  - exists w'. split; [reflexivity | exact Hstart].
Qed.

Lemma main_authentication_fails (e : exn) (w : world) :
  oauth E CLIENT_ID CLIENT_SECRET DEFAULT_REDIRECT_URI (u "user-library-read") = Raise e ->
  main E CLIENT_ID CLIENT_SECRET fuel sched w
  = main_handler e (started w).
Proof.
  intros Hoauth. unfold main. rewrite !bind_print, configured. unfold try_except.
  unfold init. rewrite bind_assoc, bind_call.
  change (download_folder (new_downloader CLIENT_ID CLIENT_SECRET DEFAULT_REDIRECT_URI))
    with (u "Downloaded_Music").
  rewrite folder_made, bind_ret.
  unfold authenticate_spotify. rewrite bind_assoc. unfold bind at 1.
  change (oauth E _ _ _ _)
    with (oauth E CLIENT_ID CLIENT_SECRET DEFAULT_REDIRECT_URI (u "user-library-read")).
  rewrite Hoauth. reflexivity.
Qed.

Lemma main_authenticated (s : spotify) (w : world) :
  oauth E CLIENT_ID CLIENT_SECRET DEFAULT_REDIRECT_URI (u "user-library-read") = Ok s ->
  main E CLIENT_ID CLIENT_SECRET fuel sched w
  = let downloader :=
      set_sp (new_downloader CLIENT_ID CLIENT_SECRET DEFAULT_REDIRECT_URI) s in
    try_except
      (bind (get_liked_songs E fuel downloader) (main_after_fetch E sched downloader))
      main_handler (authenticated w).
Proof.
  intros Hoauth. unfold main. rewrite !bind_print, configured. unfold try_except.
  unfold init. rewrite bind_assoc, bind_call.
  change (download_folder (new_downloader CLIENT_ID CLIENT_SECRET DEFAULT_REDIRECT_URI))
    with (u "Downloaded_Music").
  rewrite folder_made, bind_ret.
  unfold authenticate_spotify. rewrite bind_assoc. unfold bind at 1.
  change (oauth E _ _ _ _)
    with (oauth E CLIENT_ID CLIENT_SECRET DEFAULT_REDIRECT_URI (u "user-library-read")).
  rewrite Hoauth. rewrite bind_assoc, bind_print, bind_ret. reflexivity.
Qed.

End Main.

(** C10.  With credentials set, the folder made and the authentication
    done, when the first page of saved tracks is empty, so that the
    fetched list is empty, [main] returns after the line that no liked
    songs were found: the whole run is the eight events below, none of
    which opens or writes [playlist_info.json], asks the user, lists the
    folder, searches or downloads; the folder is as it was. *)
Theorem main_empty_catalog :
  forall (E : env) (CLIENT_ID CLIENT_SECRET : str) (fuel : nat) (sched : schedule)
         (w : world) (s : spotify),
    str_eqb CLIENT_ID PLACEHOLDER_CLIENT_ID = false ->
    mkdir E (u "Downloaded_Music") = Ok tt ->
    oauth E CLIENT_ID CLIENT_SECRET DEFAULT_REDIRECT_URI (u "user-library-read") = Ok s ->
    current_user_saved_tracks E 50 0 = Ok [] ->
    0 < fuel ->
    main E CLIENT_ID CLIENT_SECRET fuel sched w
    = (Some (Ok tt),
       {| fs := fs w;
          trace := trace w ++
            [ EPrint (u "Spotify Liked Songs Downloader");
              EPrint (repeat_char "=" 40);
              EMkdir (u "Downloaded_Music");
              EPrint (CHECK_MARK ++ u " Successfully authenticated with Spotify");
              EPrint (u "Fetching liked songs from Spotify...");
              ESavedTracks 50 0;
              EPrint (CHECK_MARK ++ u " Found " ++ str_of_nat 0 ++ u " liked songs");
              EPrint (u "No liked songs found!") ] |}).
Proof.
  intros E cid secret fuel sched w s Hcid Hmkdir Hoauth Hpage Hfuel.
  rewrite (main_authenticated E cid secret fuel sched Hcid Hmkdir s w Hoauth).
  cbv zeta. unfold try_except, get_liked_songs. simpl sp. cbv beta iota.
  rewrite bind_assoc, bind_print.
  destruct fuel as [|fuel]; [lia|].
  simpl fetch_loop. rewrite !bind_assoc, bind_call, Hpage.
  rewrite bind_ret, bind_assoc, bind_print, bind_ret.
  unfold main_after_fetch, print, emit, authenticated, started, add_event. simpl.
  rewrite <- !app_assoc. reflexivity.
Qed.

Lemma main_empty_catalog_witness :
  fst (main (Sample.working []) Sample.CLIENT_ID Sample.CLIENT_SECRET 1 Sample.one_by_one
         Sample.empty_world) = Some (Ok tt)
  /\ existsb (fun e => is_write e || is_input e || is_per_track e)
       (trace (snd (main (Sample.working []) Sample.CLIENT_ID Sample.CLIENT_SECRET 1 Sample.one_by_one
                      Sample.empty_world))) = false.
Proof.
  rewrite (main_empty_catalog (Sample.working []) Sample.CLIENT_ID Sample.CLIENT_SECRET
             1 Sample.one_by_one Sample.empty_world
             (Spotify Sample.CLIENT_ID Sample.CLIENT_SECRET DEFAULT_REDIRECT_URI
                (u "user-library-read"))).
  - split; reflexivity.
  - reflexivity.
  - reflexivity.
  - reflexivity.
  - reflexivity.
  - apply Nat.lt_0_1.
Defined.

(** C9, as amended.  [get_liked_songs] without a session raises before
    any request.  In [main], with credentials set and the folder made,
    when the authentication raises, or when a page request raises after
    any number of non-empty pages, the exception reaches the handler of
    [main]: the last event of the run is the line that an error
    occurred, with the message of the exception; before it there are only
    console lines, the creation of the folder and page requests, so no
    snapshot is written and no track is processed; the pages fetched
    before the error are dropped, [get_liked_songs] returning no catalog;
    and [main] returns, so that the exit status of the script is 0. *)
Theorem fatal_errors_are_reported :
  forall (E : env) (CLIENT_ID CLIENT_SECRET : str) (fuel : nat) (sched : schedule)
         (w : world),
    str_eqb CLIENT_ID PLACEHOLDER_CLIENT_ID = false ->
    mkdir E (u "Downloaded_Music") = Ok tt ->
    (forall self w1,
       sp self = None ->
       get_liked_songs E fuel self w1
       = (Some (Raise (Exn "Exception" (u "Not authenticated with Spotify"))), w1))
    /\ (forall e,
          oauth E CLIENT_ID CLIENT_SECRET DEFAULT_REDIRECT_URI (u "user-library-read")
          = Raise e ->
          main E CLIENT_ID CLIENT_SECRET fuel sched w
          = (Some (Ok tt), add_event (EPrint (error_line e)) (started w))
          /\ exit_status (fst (main E CLIENT_ID CLIENT_SECRET fuel sched w)) = Some 0%Z)
    /\ (forall s pages e,
          oauth E CLIENT_ID CLIENT_SECRET DEFAULT_REDIRECT_URI (u "user-library-read")
          = Ok s ->
          serves E 50 pages (Raise e) ->
          length pages < fuel ->
          exists w1,
            get_liked_songs E fuel
              (set_sp (new_downloader CLIENT_ID CLIENT_SECRET DEFAULT_REDIRECT_URI) s)
              (authenticated w)
            = (Some (Raise e), w1)
            /\ extends_trace is_setup w w1
            /\ main E CLIENT_ID CLIENT_SECRET fuel sched w
               = (Some (Ok tt), add_event (EPrint (error_line e)) w1)
            /\ exit_status (fst (main E CLIENT_ID CLIENT_SECRET fuel sched w)) = Some 0%Z).
Proof.
  intros E cid secret fuel sched w Hcid Hmkdir. split; [|split].
  - intros self w1 Hsp. unfold get_liked_songs. rewrite Hsp. reflexivity.
  - intros e Hoauth.
    rewrite (main_authentication_fails E cid secret fuel sched Hcid Hmkdir e w Hoauth).
    split; reflexivity.
  - intros s pages e Hoauth Hserves Hfuel.
    rewrite (main_authenticated E cid secret fuel sched Hcid Hmkdir s w Hoauth).
    cbv zeta.
    destruct (get_liked_songs_serves E fuel
                (set_sp (new_downloader cid secret DEFAULT_REDIRECT_URI) s) s
                pages (Raise e) (authenticated w) eq_refl Hserves
                (or_intror (ex_intro _ e eq_refl)) Hfuel) as (w1 & Hrun & Hext).
    exists w1. split; [exact Hrun|]. split; [|split].
    + apply extends_trace_trans with (authenticated w).
      * unfold authenticated, started.
        repeat (eapply extends_trace_trans;
                [|apply extends_trace_event; reflexivity]).
        apply extends_trace_refl.
      * eapply extends_trace_weaken; [|exact Hext].
        intros [] H; try discriminate H; reflexivity.
    + unfold try_except, bind. rewrite Hrun. reflexivity.
    + unfold try_except, bind. rewrite Hrun. reflexivity.
Qed.

(** An authentication that fails and a second page request that fails:
    both runs end with the error line and exit status 0. *)
Lemma fatal_errors_are_reported_witness :
  exit_status (fst (main Sample.authentication_fails Sample.CLIENT_ID
                      Sample.CLIENT_SECRET 5 Sample.one_by_one Sample.empty_world)) = Some 0%Z
  /\ exists w1,
       main Sample.second_page_fails Sample.CLIENT_ID Sample.CLIENT_SECRET 5 Sample.one_by_one
         Sample.empty_world
       = (Some (Ok tt), add_event (EPrint (error_line Sample.api_error)) w1)
       /\ extends_trace is_setup Sample.empty_world w1.
Proof.
  split.
  - destruct (fatal_errors_are_reported Sample.authentication_fails Sample.CLIENT_ID
                Sample.CLIENT_SECRET 5 Sample.one_by_one Sample.empty_world eq_refl eq_refl)
      as (_ & Hauth & _).
    destruct (Hauth Sample.oauth_error eq_refl) as [_ Hexit]. exact Hexit.
  - destruct (fatal_errors_are_reported Sample.second_page_fails Sample.CLIENT_ID
                Sample.CLIENT_SECRET 5 Sample.one_by_one Sample.empty_world eq_refl eq_refl)
      as (_ & _ & Hpage).
    destruct (Hpage (Spotify Sample.CLIENT_ID Sample.CLIENT_SECRET DEFAULT_REDIRECT_URI
                       (u "user-library-read"))
                [[Sample.track_item; Sample.duet_item]] Sample.api_error eq_refl)
      as (w1 & _ & Hext & Hmain & _).
    + split; [|reflexivity].
      intros [|i] page Hi; simpl in Hi; [|destruct i; discriminate Hi].
      injection Hi as <-. split; [discriminate | reflexivity].
    + simpl. lia.
    + exists w1. split; [exact Hmain | exact Hext].
Defined.

(** C9 as stated fails: a page request raises, the handler of line 230
    prints the error, [main] returns, and the script exits with status 0,
    not with a non-zero one. *)
Lemma fatal_error_exit_status_counterexample :
  current_user_saved_tracks Sample.second_page_fails 50 50 = Raise Sample.api_error
  /\ fst (main Sample.second_page_fails Sample.CLIENT_ID Sample.CLIENT_SECRET 5 Sample.one_by_one
            Sample.empty_world) = Some (Ok tt)
  /\ exit_status (fst (main Sample.second_page_fails Sample.CLIENT_ID
                         Sample.CLIENT_SECRET 5 Sample.one_by_one Sample.empty_world)) = Some 0%Z
  /\ exit_status (fst (main Sample.second_page_fails Sample.CLIENT_ID
                         Sample.CLIENT_SECRET 5 Sample.one_by_one Sample.empty_world)) <> Some 1%Z.
Proof.
  split; [reflexivity|]. split; [vm_compute; reflexivity|].
  split; [vm_compute; reflexivity|]. vm_compute. discriminate.
Qed.

(** ** The snapshot *)


Lemma try_except_bind_ok {A B} (m : M A) (f : A -> M B) (h : exn -> M B)
    (a : A) (w w1 : world) :
  m w = (Some (Ok a), w1) ->
  try_except (bind m f) h w = try_except (f a) h w1.
Proof. intros H. unfold try_except, bind. rewrite H. reflexivity. Qed.



(** *** Texts without surrogates are encoded *)











(* ===================================================================== *)
(** * Further properties of the code *)
(* ===================================================================== *)

(** ** The guards of [main] *)

(** X1.  With the client id the script is distributed with, [main]
    prints its title and the seven lines of instructions and returns:
    whatever the secret and the collaborators, it creates no folder,
    authenticates nowhere and asks nothing. *)
Theorem main_placeholder_credentials :
  forall (E : env) (CLIENT_SECRET : str) (fuel : nat) (sched : schedule) (w : world),
    main E PLACEHOLDER_CLIENT_ID CLIENT_SECRET fuel sched w
    = (Some (Ok tt),
       {| fs := fs w;
          trace := trace w ++
            map EPrint ([ u "Spotify Liked Songs Downloader"; repeat_char "=" 40 ]
                          ++ setup_instructions) |}).
Proof.
  intros E secret fuel sched w. unfold main.
  rewrite !bind_print, str_eqb_refl, print_all_run. unfold add_event. simpl fs. simpl trace.
  rewrite <- !app_assoc. reflexivity.
Qed.

(** ** Identifiers *)

Lemma startswith_app_r (p s t : str) :
  startswith p s = true -> startswith p (s ++ t) = true.
Proof.
  intros H. apply startswith_iff in H. destruct H as [rest ->].
  rewrite <- app_assoc. apply startswith_app.
Qed.

Lemma contains_startswith (needle hay : str) :
  startswith needle hay = true -> contains needle hay = true.
Proof. intros H. destruct hay; simpl in *; rewrite H; reflexivity. Qed.

Lemma contains_app_l (needle a b : str) :
  contains needle b = true -> contains needle (a ++ b) = true.
Proof.
  intros H. induction a as [|c a IH]; [exact H|].
  simpl. rewrite IH. apply orb_true_r.
Qed.

(** X3.  The identifier of a song is the sanitized artist, the
    separator, and the sanitized title.  So it is never empty (the
    pattern of the existence check is never the bare star, which would
    match every file), and it holds neither slash nor backslash (the
    output template names a file directly inside the download folder). *)
Theorem identifier_structure :
  forall song : song_info,
    safe_filename_of song
    = sanitize_filename (artist song) ++ u " - " ++ sanitize_filename (name song)
    /\ contains (u " - ") (safe_filename_of song) = true
    /\ safe_filename_of song <> []
    /\ ~ In 47%N (safe_filename_of song)
    /\ ~ In 92%N (safe_filename_of song).
Proof.
  intros song.
  assert (H : safe_filename_of song
              = sanitize_filename (artist song) ++ u " - " ++ sanitize_filename (name song)).
  { unfold safe_filename_of. rewrite !sanitize_filename_app. reflexivity. }
  split; [exact H|]. split; [|split; [|split]].
  - rewrite H. apply contains_app_l, contains_startswith, startswith_app.
  - rewrite H. intros Hnil. apply (f_equal (@length char)) in Hnil.
    rewrite !length_app in Hnil. simpl in Hnil. lia.
  - unfold safe_filename_of. intros Hin. apply sanitize_filename_In in Hin.
    destruct Hin as [_ Hr]. apply Hr. simpl. auto 10.
  - unfold safe_filename_of. intros Hin. apply sanitize_filename_In in Hin.
    destruct Hin as [_ Hr]. apply Hr. simpl. auto 10.
Qed.

(** X4.  For an identifier without star, question mark and opening
    bracket, the existence check holds exactly when some entry of the
    directory is the identifier followed by anything (also by nothing,
    and not only by an extension). *)
Theorem existence_check_is_prefix_test :
  forall (entries : list str) (identifier : str),
    plain identifier = true ->
    (existence_check entries identifier = true
     <-> exists f rest, In f entries /\ f = identifier ++ rest).
Proof.
  intros entries identifier Hplain.
  rewrite existence_check_plain by assumption.
  rewrite existsb_exists. split.
  - intros (f & Hin & Hpre). apply startswith_iff in Hpre. destruct Hpre as [rest ->].
    exists (identifier ++ rest), rest. split; [exact Hin | reflexivity].
  - intros (f & rest & Hin & ->). exists (identifier ++ rest).
    split; [exact Hin | apply startswith_app].
Qed.

(** The check for [Band - Song] holds in a folder that has only the file
    of [Band - Song 2]. *)
Lemma existence_check_is_prefix_test_witness :
  existence_check [u "Band - Song 2.mp3"] (u "Band - Song") = true.
Proof.
  apply (existence_check_is_prefix_test [u "Band - Song 2.mp3"] (u "Band - Song")).
  - reflexivity.
  - exists (u "Band - Song 2.mp3"), (u " 2.mp3"). split; [left|]; reflexivity.
Defined.

(** ** One task *)

(** X5.  No retry: a task lists the folder once, then searches at most
    once, then downloads at most once, the download with the options of
    the object and the output template of the song; it does nothing
    else. *)
Theorem task_events_no_retry :
  forall (E : env) (self : SpotifyDownloader) (song : song_info) (w : world),
    exists new,
      trace (snd (run (search_and_download_song E self song) w)) = trace w ++ new
      /\ (new = [EGlob (download_folder self) (pattern_of song)]
          \/ new = [EGlob (download_folder self) (pattern_of song);
                    EExtractInfo (search_query_of song)]
          \/ exists url,
               new = [EGlob (download_folder self) (pattern_of song);
                      EExtractInfo (search_query_of song);
                      EDownload url (custom_opts_of self song)]).
Proof.
  intros E self song w. rewrite run_search_and_download_song. cbv zeta.
  destruct (scandir_error E (pattern_of song)).
  { eexists. split; [reflexivity|]. left. reflexivity. }
  destruct (glob (fs w) (pattern_of song)).
  2:{ eexists. split; [reflexivity|]. left. reflexivity. }
  destruct (extract_info E (search_query_of song)) as [i|e].
  2:{ eexists. split; [simpl; rewrite <- app_assoc; reflexivity|]. right. left. reflexivity. }
  destruct (entries i) as [[|v l]|].
  1,3: eexists; (split; [simpl; rewrite <- app_assoc; reflexivity|]); right; left; reflexivity.
  destruct (download E (webpage_url v) (custom_opts_of self song));
    eexists; (split; [simpl; rewrite <- !app_assoc; reflexivity|]);
    right; right; exists (webpage_url v); reflexivity.
Qed.

(** A task whose identifier holds no opening bracket is skipped when the
    folder has an entry that starts with the identifier. *)
Lemma run_skipped (E : env) (self : SpotifyDownloader) (song : song_info)
    (w : world) (f : str) :
  scandir_error E (pattern_of song) = None ->
  bracket_free song ->
  In f (fs w) -> startswith (safe_filename_of song) f = true ->
  run (search_and_download_song E self song) w
  = (Ok (skipped_message (query_of song)),
     add_event (EGlob (download_folder self) (pattern_of song)) w).
Proof.
  intros Hscan Hfree Hin Hpre.
  rewrite run_search_and_download_song. cbv zeta. rewrite Hscan.
  pose proof (glob_nonempty (fs w) (safe_filename_of song) f
                (bracket_free_plain song Hfree) Hin Hpre) as Hglob.
  fold (pattern_of song) in Hglob.
  destruct (glob (fs w) (pattern_of song)); [contradiction | reflexivity].
Qed.

(** A task that returns the downloaded message has left the file its
    download named. *)
Lemma run_downloaded_file (E : env) (self : SpotifyDownloader) (song : song_info)
    (w : world) :
  fst (run (search_and_download_song E self song) w)
  = Ok (downloaded_message (query_of song)) ->
  exists url f,
    download E url (custom_opts_of self song) = Ok f
    /\ In f (fs (snd (run (search_and_download_song E self song) w))).
Proof.
  intros Hdone. rewrite run_search_and_download_song in *. cbv zeta in *.
  destruct (scandir_error E (pattern_of song)); [discriminate Hdone|].
  destruct (glob (fs w) (pattern_of song)); [|discriminate Hdone].
  destruct (extract_info E (search_query_of song)) as [i|e]; [|discriminate Hdone].
  destruct (entries i) as [[|v l]|]; try discriminate Hdone.
  destruct (download E (webpage_url v) (custom_opts_of self song)) as [f|e] eqn:Hd;
    [|discriminate Hdone].
  exists (webpage_url v), f. split; [exact Hd|]. simpl. apply create_In.
Qed.

(** X6.  A downloaded track shadows every track whose identifier is a
    prefix of its own, in particular the same artist and title on another
    album: once the task of a track has returned the downloaded message,
    its download having named the file by the identifier (the name
    starts with it), the task of such a track, when its identifier holds
    no opening bracket and its listing succeeds, is skipped in every
    later state of the folder, without search and without download. *)
Theorem downloaded_track_shadows_prefixes :
  forall (E : env) (self : SpotifyDownloader) (a b : song_info) (w w2 : world),
    fst (run (search_and_download_song E self a) w)
    = Ok (downloaded_message (query_of a)) ->
    keeps_identifier E self a ->
    startswith (safe_filename_of b) (safe_filename_of a) = true ->
    bracket_free b ->
    scandir_error E (pattern_of b) = None ->
    incl (fs (snd (run (search_and_download_song E self a) w))) (fs w2) ->
    run (search_and_download_song E self b) w2
    = (Ok (skipped_message (query_of b)),
       add_event (EGlob (download_folder self) (pattern_of b)) w2).
Proof.
  intros E self a b w w2 Hdone Hkeeps Hpre Hfree Hscan Hincl.
  destruct (run_downloaded_file E self a w Hdone) as (url & f & Hd & Hfile).
  apply (run_skipped E self b w2 f Hscan Hfree).
  - apply Hincl, Hfile.
  - pose proof (Hkeeps url f Hd) as Hf. apply startswith_iff in Hf.
    destruct Hf as [rest ->]. apply startswith_app_r, Hpre.
Qed.

(** The track [Song] after its sequel [Song 2], and after its reissue on
    another album: both times it is skipped. *)
Lemma downloaded_track_shadows_prefixes_witness :
  fst (run (search_and_download_song (Sample.working []) Sample.downloader Sample.track)
           (snd (run (search_and_download_song (Sample.working []) Sample.downloader
                        Cases.sequel) Sample.empty_world)))
  = Ok (skipped_message (u "Band - Song"))
  /\ fst (run (search_and_download_song (Sample.working []) Sample.downloader Sample.track)
              (snd (run (search_and_download_song (Sample.working []) Sample.downloader
                           Cases.reissue) Sample.empty_world)))
     = Ok (skipped_message (u "Band - Song")).
Proof.
  assert (Hfree : bracket_free Sample.track).
  { intros H. vm_compute in H.
    repeat (destruct H as [H|H]; [discriminate H|]). exact H. }
  assert (Hkeeps : forall song,
             keeps_identifier (Sample.working []) Sample.downloader song ->
             keeps_identifier (Sample.working []) Sample.downloader song)
    by (intros song H; exact H).
  split.
  - rewrite (downloaded_track_shadows_prefixes (Sample.working []) Sample.downloader
               Cases.sequel Sample.track Sample.empty_world
               (snd (run (search_and_download_song (Sample.working []) Sample.downloader
                            Cases.sequel) Sample.empty_world)));
      [reflexivity | reflexivity | | reflexivity | exact Hfree | reflexivity
       | apply incl_refl].
    intros url f Hd. injection Hd as <-. vm_compute. reflexivity.
  - rewrite (downloaded_track_shadows_prefixes (Sample.working []) Sample.downloader
               Cases.reissue Sample.track Sample.empty_world
               (snd (run (search_and_download_song (Sample.working []) Sample.downloader
                            Cases.reissue) Sample.empty_world)));
      [reflexivity | reflexivity | | reflexivity | exact Hfree | reflexivity
       | apply incl_refl].
    intros url f Hd. injection Hd as <-. vm_compute. reflexivity.
Defined.

(** ** The pool *)

Section SingleWorker.

Variables T R : Type.




End SingleWorker.


Lemma run_try_block_downloads (E : env) (self : SpotifyDownloader) (song : song_info)
    (w : world) (i : info) (v : entry) (rest : list entry) (f : str) :
  extract_info E (search_query_of song) = Ok i ->
  entries i = Some (v :: rest) ->
  download E (webpage_url v) (custom_opts_of self song) = Ok f ->
  run (try_block E self song) w
  = (Ok (downloaded_message (query_of song)),
     add_file f
       (add_event (EDownload (webpage_url v) (custom_opts_of self song))
          (add_event (EExtractInfo (search_query_of song)) w))).
Proof.
  intros Hi He Hd. unfold try_block, ttry, tbind, ydl_extract_info.
  cbn [run prog_bind].
  change (extract_info E (u "ytsearch1:" ++ query_of song))
    with (extract_info E (search_query_of song)).
  rewrite Hi. cbn [run prog_bind]. rewrite He.
  unfold ydl_download. cbn [run prog_bind].
  change (with_outtmpl (ydl_opts self)
            (path_join (download_folder self) (safe_filename_of song ++ u ".%(ext)s")))
    with (custom_opts_of self song).
  rewrite Hd. reflexivity.
Qed.

(** X8.  The existence check and the download are not one step.  Take
    two tracks with the same identifier (the same artist and title), no
    file for them in the folder, a search hit and a successful download
    for each, the first naming its file by the identifier.  When the
    second worker lists the folder before the first has downloaded, both
    tasks find nothing and both download; when the tasks run one after
    the other, the second is skipped. *)
Theorem existence_check_is_not_atomic :
  forall (E : env) (self : SpotifyDownloader) (a b : song_info) (w : world)
         (ia ib : info) (va vb : entry) (ra rb : list entry) (fa fb : str),
    safe_filename_of a = safe_filename_of b ->
    bracket_free b ->
    scandir_error E (pattern_of a) = None ->
    glob (fs w) (pattern_of a) = [] ->
    extract_info E (search_query_of a) = Ok ia -> entries ia = Some (va :: ra) ->
    extract_info E (search_query_of b) = Ok ib -> entries ib = Some (vb :: rb) ->
    download E (webpage_url va) (custom_opts_of self a) = Ok fa ->
    download E (webpage_url vb) (custom_opts_of self b) = Ok fb ->
    startswith (safe_filename_of a) fa = true ->
    fst (Pool.execute 2 [0; 1] (submitted E self [a; b]) w)
    = [(a, Ok (downloaded_message (query_of a)));
       (b, Ok (downloaded_message (query_of b)))]
    /\ fst (Pool.execute 2 [] (submitted E self [a; b]) w)
       = [(a, Ok (downloaded_message (query_of a)));
          (b, Ok (skipped_message (query_of b)))].
Proof.
  intros E self a b w ia ib va vb ra rb fa fb Hsame Hfree Hsa Hga Hia Hea Hib Heb
         Hda Hdb Hfa.
  assert (Hpat : pattern_of b = pattern_of a) by (unfold pattern_of; rewrite Hsame; reflexivity).
  split.
  - unfold Pool.execute, submitted, Pool.submit_all.
    cbn [map firstn skipn Pool.run_schedule].
    unfold Pool.worker_step at 1. cbn [Pool.running nth_error].
    unfold search_and_download_song at 1. unfold tbind at 1. unfold glob_folder.
    cbn [prog_bind Pool.queue Pool.done Pool.replace_nth].
    unfold Pool.worker_step at 1. cbn [Pool.running nth_error].
    unfold search_and_download_song at 1. unfold tbind at 1. unfold glob_folder.
    cbn [prog_bind Pool.queue Pool.done Pool.replace_nth].
    unfold Pool.shutdown. cbn [Pool.running Pool.queue Pool.done app Pool.finish].
    fold (pattern_of a). fold (pattern_of b). rewrite Hpat.
    rewrite Hsa. cbn [fs add_event]. rewrite Hga. cbn [prog_bind].
    fold (try_block E self a). fold (try_block E self b).
    rewrite (run_try_block_downloads E self a _ ia va ra fa Hia Hea Hda).
    rewrite (run_try_block_downloads E self b _ ib vb rb fb Hib Heb Hdb).
    reflexivity.
  - unfold Pool.execute, submitted, Pool.submit_all.
    cbn [map firstn skipn Pool.run_schedule].
    unfold Pool.shutdown. cbn [Pool.running Pool.queue Pool.done app Pool.finish].
    assert (Hrun : run (search_and_download_song E self a) w
                   = (Ok (downloaded_message (query_of a)),
                      add_file fa
                        (add_event (EDownload (webpage_url va) (custom_opts_of self a))
                           (add_event (EExtractInfo (search_query_of a))
                              (add_event (EGlob (download_folder self) (pattern_of a)) w))))).
    { rewrite run_search_and_download_song. cbv zeta.
      rewrite Hsa, Hga, Hia, Hea, Hda. reflexivity. }
    rewrite Hrun.
    rewrite (run_skipped E self b _ fa).
    + reflexivity.
    + rewrite Hpat. exact Hsa.
    + exact Hfree.
    + simpl. apply create_In.
    + rewrite <- Hsame. exact Hfa.
Qed.

(** The track [Song] and its reissue on another album, with working
    collaborators and an empty folder. *)
Lemma existence_check_is_not_atomic_witness :
  fst (Pool.execute 2 [0; 1]
         (submitted (Sample.working []) Sample.downloader [Sample.track; Cases.reissue])
         Sample.empty_world)
  = [(Sample.track, Ok (downloaded_message (u "Band - Song")));
     (Cases.reissue, Ok (downloaded_message (u "Band - Song")))]
  /\ fst (Pool.execute 2 []
            (submitted (Sample.working []) Sample.downloader [Sample.track; Cases.reissue])
            Sample.empty_world)
     = [(Sample.track, Ok (downloaded_message (u "Band - Song")));
        (Cases.reissue, Ok (skipped_message (u "Band - Song")))].
Proof.
  apply (existence_check_is_not_atomic (Sample.working []) Sample.downloader
           Sample.track Cases.reissue Sample.empty_world
           {| entries := Some [ {| webpage_url := u "https://video.example/watch?v=1" |} ] |}
           {| entries := Some [ {| webpage_url := u "https://video.example/watch?v=1" |} ] |}
           {| webpage_url := u "https://video.example/watch?v=1" |}
           {| webpage_url := u "https://video.example/watch?v=1" |}
           [] [] (u "Band - Song.mp3") (u "Band - Song.mp3")); try reflexivity.
  intros H. vm_compute in H.
  repeat (destruct H as [H|H]; [discriminate H|]). exact H.
Defined.

(** ** The run as a whole *)

Lemma lower_is_y (r : str) :
  str_eqb (lower r) (u "y") = true -> r = u "y" \/ r = u "Y".
Proof.
  intros H. apply str_eqb_eq in H.
  change (u "y") with [121%N] in *. change (u "Y") with [89%N].
  destruct r as [|c [|d r]]; try discriminate H.
  injection H as H. unfold lower_char in H.
  destruct ((65 <=? c)%N && (c <=? 90)%N) eqn:Hc.
  - right. f_equal. lia.
  - left. f_equal. exact H.
Qed.

Section Quiet.

Variable E : env.
Variable P : event -> bool.
Hypothesis P_other : forall e, is_per_track e = false -> P e = true.

Lemma produces_init (client_id client_secret redirect_uri : str) :
  produces P (init E client_id client_secret redirect_uri).
Proof.
  unfold init. cbv zeta.
  apply produces_bind; [apply produces_call, P_other; reflexivity|].
  intros _. apply produces_ret.
Qed.

Lemma produces_authenticate_spotify (self : SpotifyDownloader) :
  produces P (authenticate_spotify E self).
Proof.
  unfold authenticate_spotify. cbv zeta.
  apply produces_bind; [intros w; apply extends_refl|]. intros s.
  apply produces_bind; [apply produces_print, P_other; reflexivity|].
  intros _. apply produces_ret.
Qed.

Lemma produces_fetch_loop (fuel : nat) :
  forall limit offset liked_songs,
    produces P (fetch_loop E fuel limit offset liked_songs).
Proof.
  induction fuel as [|fuel IH]; intros limit offset liked_songs; cbn [fetch_loop].
  - intros w. apply extends_refl.
  - apply produces_bind; [apply produces_call, P_other; reflexivity|].
    intros [|it items]; [apply produces_ret|]. cbv zeta.
    apply produces_bind; [apply produces_print, P_other; reflexivity|].
    intros _. apply IH.
Qed.

Lemma produces_get_liked_songs (fuel : nat) (self : SpotifyDownloader) :
  produces P (get_liked_songs E fuel self).
Proof.
  unfold get_liked_songs. destruct (sp self); [|apply produces_raise].
  apply produces_bind; [apply produces_print, P_other; reflexivity|]. intros _.
  apply produces_bind; [apply produces_fetch_loop|]. intros liked_songs.
  apply produces_bind; [apply produces_print, P_other; reflexivity|].
  intros _. apply produces_ret.
Qed.

Lemma produces_save_playlist_info (self : SpotifyDownloader) (songs : list song_info) :
  produces P (save_playlist_info E self songs).
Proof.
  unfold save_playlist_info. cbv zeta.
  apply produces_bind.
  { intros w. unfold open_for_writing.
    destruct (open_w E _); cbn [snd];
      [apply extends_file | apply extends_event]; apply P_other; reflexivity. }
  intros _. apply produces_bind.
  { intros w. unfold json_dump.
    destruct (Json.encode_error _); [apply extends_refl|].
    destruct (write_error E _ _); [apply extends_refl|].
    cbn [snd]. apply extends_event, P_other. reflexivity. }
  intros _. apply produces_print, P_other. reflexivity.
Qed.

End Quiet.

(** X9.  Nothing is listed, searched or downloaded without the consent
    of the user: when the answer to the question of line 222 is never
    [y] or [Y], a run of [main] adds no event of a task to the trace,
    whatever the credentials, the collaborators, the catalog and the
    schedule are. *)
Theorem downloads_need_consent :
  forall (E : env) (CLIENT_ID CLIENT_SECRET : str) (fuel : nat) (sched : schedule)
         (w : world),
    (forall prompt, input E prompt <> Ok (u "y") /\ input E prompt <> Ok (u "Y")) ->
    exists new,
      trace (snd (main E CLIENT_ID CLIENT_SECRET fuel sched w)) = trace w ++ new
      /\ forallb (fun e => negb (is_per_track e)) new = true.
Proof.
  intros E cid secret fuel sched w Hinput.
  set (P := fun e => negb (is_per_track e)).
  assert (HP : forall e, is_per_track e = false -> P e = true)
    by (intros e He; unfold P; rewrite He; reflexivity).
  assert (H : produces P (main E cid secret fuel sched)).
  { unfold main.
    apply produces_bind; [apply produces_print; reflexivity|]. intros _.
    apply produces_bind; [apply produces_print; reflexivity|]. intros _.
    destruct (str_eqb cid PLACEHOLDER_CLIENT_ID).
    { apply produces_print_all. reflexivity. }
    apply produces_try_except; [|intros e; apply produces_print; reflexivity].
    apply produces_bind; [apply produces_init, HP|]. intros d0.
    apply produces_bind; [apply produces_authenticate_spotify, HP|]. intros d.
    apply produces_bind; [apply produces_get_liked_songs, HP|]. intros songs.
    unfold main_after_fetch.
    destruct songs as [|s0 rest]; [apply produces_print; reflexivity|].
    apply produces_bind; [apply produces_save_playlist_info, HP|]. intros _.
    cbv zeta. intros w1. unfold bind at 1. unfold call at 1.
    destruct (input E _) as [r|e] eqn:Hr; cbn [fst snd];
      [|apply (extends_event P (EInput _)); reflexivity].
    destruct (str_eqb (lower r) (u "y")) eqn:Hy; cbn [negb].
    - exfalso. destruct (Hinput ([10%N] ++ u "Found "
                                   ++ str_of_nat (length (s0 :: rest))
                                   ++ u " songs. Download all? (y/n): ")) as [H1 H2].
      destruct (lower_is_y r Hy) as [-> | ->]; [apply H1 | apply H2]; exact Hr.
    - match goal with
      | |- extends P w1 (snd (print ?l (add_event ?e w1))) =>
          apply (extends_trans P w1 (add_event e w1));
            [apply extends_event; reflexivity | apply (produces_print P l); reflexivity]
      end. }
  destruct (H w) as [_ Hnew]. exact Hnew.
Qed.

(** A catalog of one track, and the answer [yes]. *)
Lemma downloads_need_consent_witness :
  exists new,
    trace (snd (main Cases.answers_yes Sample.CLIENT_ID Sample.CLIENT_SECRET 2
                  Sample.one_by_one Sample.empty_world))
    = trace Sample.empty_world ++ new
    /\ forallb (fun e => negb (is_per_track e)) new = true.
Proof.
  apply (downloads_need_consent Cases.answers_yes Sample.CLIENT_ID Sample.CLIENT_SECRET 2
           Sample.one_by_one Sample.empty_world).
  intros prompt. split; intros H; vm_compute in H; discriminate H.
Defined.

(** X10.  When [playlist_info.json] cannot be opened for writing, the
    run ends there: with credentials set, the folder made, the
    authentication done and a catalog that is not empty, [main] prints
    the line of its handler with the text of the error and returns.
    Nothing is written, the user is not asked, no task is started and
    the folder is as it was. *)
Theorem snapshot_failure_ends_the_run :
  forall (E : env) (CLIENT_ID CLIENT_SECRET : str) (fuel : nat) (sched : schedule)
         (w : world) (s : spotify) (pages : list (list item)) (e : exn),
    str_eqb CLIENT_ID PLACEHOLDER_CLIENT_ID = false ->
    mkdir E (u "Downloaded_Music") = Ok tt ->
    oauth E CLIENT_ID CLIENT_SECRET DEFAULT_REDIRECT_URI (u "user-library-read") = Ok s ->
    serves E 50 pages (Ok []) ->
    pages <> [] ->
    length pages < fuel ->
    open_w E PLAYLIST_FILE = Raise e ->
    exists fetched,
      main E CLIENT_ID CLIENT_SECRET fuel sched w
      = (Some (Ok tt),
         {| fs := fs w;
            trace := trace w ++
              [ EPrint (u "Spotify Liked Songs Downloader");
                EPrint (repeat_char "=" 40);
                EMkdir (u "Downloaded_Music");
                EPrint (CHECK_MARK ++ u " Successfully authenticated with Spotify") ]
              ++ fetched
              ++ [ EOpen PLAYLIST_FILE; EPrint (error_line e) ] |})
      /\ forallb is_fetch fetched = true.
Proof.
  intros E cid secret fuel sched w s pages e Hcid Hmkdir Hoauth Hserves Hne Hfuel Hopen.
  rewrite (main_authenticated E cid secret fuel sched Hcid Hmkdir s w Hoauth).
  cbv zeta.
  set (d := set_sp (new_downloader cid secret DEFAULT_REDIRECT_URI) s).
  destruct (get_liked_songs_serves E fuel d s pages (Ok []) (authenticated w)
              eq_refl Hserves (or_introl eq_refl) Hfuel) as (w1 & Hrun & Hext).
  rewrite (try_except_bind_ok _ _ _ _ _ _ Hrun).
  assert (Hcat : exists s0 rest, map song_of_item (concat pages) = s0 :: rest).
  { destruct pages as [|page pages]; [contradiction|].
    destruct Hserves as [Hpages _]. destruct (Hpages 0 page eq_refl) as [Hp _].
    destruct page as [|it page]; [contradiction|]. simpl. eauto. }
  destruct Hcat as (s0 & rest & Hcat).
  destruct Hext as [Hfs1 (fetched & Htrace1 & Hfetched)].
  exists fetched. split; [|exact Hfetched].
  unfold main_after_fetch. rewrite Hcat.
  unfold try_except, save_playlist_info. cbv zeta.
  change (path_join (download_folder d) (u "playlist_info.json")) with PLAYLIST_FILE.
  unfold bind, open_for_writing. rewrite Hopen.
  unfold main_handler, print, emit, add_event. cbn [fst snd trace fs].
  rewrite Hfs1, Htrace1. unfold authenticated, started, add_event. cbn [trace fs].
  unfold error_line. rewrite <- !app_assoc. reflexivity.
Qed.

(** A catalog of one track on a file system that is read-only. *)
Lemma snapshot_failure_ends_the_run_witness :
  exists fetched,
    main Cases.snapshot_fails Sample.CLIENT_ID Sample.CLIENT_SECRET 2
         Sample.one_by_one Sample.empty_world
    = (Some (Ok tt),
       {| fs := fs Sample.empty_world;
          trace := trace Sample.empty_world ++
            [ EPrint (u "Spotify Liked Songs Downloader");
              EPrint (repeat_char "=" 40);
              EMkdir (u "Downloaded_Music");
              EPrint (CHECK_MARK ++ u " Successfully authenticated with Spotify") ]
            ++ fetched
            ++ [ EOpen PLAYLIST_FILE; EPrint (error_line Cases.read_only) ] |})
    /\ forallb is_fetch fetched = true.
Proof.
  apply (snapshot_failure_ends_the_run Cases.snapshot_fails Sample.CLIENT_ID
           Sample.CLIENT_SECRET 2 Sample.one_by_one Sample.empty_world
           (Spotify Sample.CLIENT_ID Sample.CLIENT_SECRET DEFAULT_REDIRECT_URI
              (u "user-library-read"))
           [[Sample.track_item]] Cases.read_only);
    try reflexivity; try discriminate; try (simpl; lia).
  split.
  - intros [|[|i]] page Hp; try discriminate Hp.
    injection Hp as <-. split; [discriminate | reflexivity].
  - reflexivity.
Defined.

(** X11.  The loop of [get_liked_songs] ends only at an empty page or at
    an error: when every page request is answered by a page that is not
    empty, the method does not return, whatever number of steps it is
    given, and with [fuel] steps it has sent [fuel] page requests. *)
Theorem get_liked_songs_needs_an_empty_page :
  forall (E : env) (self : SpotifyDownloader) (s : spotify) (fuel : nat) (w : world),
    sp self = Some s ->
    (forall offset, exists it page,
        current_user_saved_tracks E 50 offset = Ok (it :: page)) ->
    fst (get_liked_songs E fuel self w) = None
    /\ length (page_requests (trace (snd (get_liked_songs E fuel self w))))
       = length (page_requests (trace w)) + fuel.
Proof.
  intros E self s fuel w Hsp Hpages.
  assert (Hloop : forall fuel offset liked_songs w0,
             fst (fetch_loop E fuel 50 offset liked_songs w0) = None
             /\ length (page_requests
                          (trace (snd (fetch_loop E fuel 50 offset liked_songs w0))))
                = length (page_requests (trace w0)) + fuel).
  { clear fuel w. induction fuel as [|fuel IH]; intros offset liked_songs w0.
    - cbn [fetch_loop]. unfold out_of_fuel. cbn [fst snd]. split; [reflexivity | lia].
    - cbn [fetch_loop]. rewrite bind_call.
      destruct (Hpages offset) as (it & page & ->). cbv zeta.
      rewrite bind_print.
      destruct (IH (offset + 50) (liked_songs ++ map song_of_item (it :: page))
                  (add_event (EPrint (u "Fetched "
                      ++ str_of_nat (length (liked_songs ++ map song_of_item (it :: page)))
                      ++ u " songs so far..."))
                     (add_event (ESavedTracks 50 offset) w0))) as [H1 H2].
      split; [exact H1|]. rewrite H2. unfold add_event. cbn [trace].
      rewrite !page_requests_app. cbn [page_requests]. rewrite !length_app.
      cbn [length]. lia. }
  unfold get_liked_songs. rewrite Hsp, bind_print. unfold bind at 1 3.
  destruct (Hloop fuel 0 []
              (add_event (EPrint (u "Fetching liked songs from Spotify...")) w))
    as [H1 H2].
  destruct (fetch_loop E fuel 50 0 [] _) as [[r|] w'] in *; cbn [fst snd] in *;
    [discriminate H1|].
  split; [reflexivity|]. rewrite H2. unfold add_event. cbn [trace].
  rewrite page_requests_app. cbn [page_requests]. rewrite length_app. cbn [length]. lia.
Qed.

(** A library that answers every page request with one track. *)
Lemma get_liked_songs_needs_an_empty_page_witness :
  fst (get_liked_songs Cases.endless 5 Sample.downloader Sample.empty_world) = None
  /\ length (page_requests
               (trace (snd (get_liked_songs Cases.endless 5 Sample.downloader
                              Sample.empty_world))))
     = length (page_requests (trace Sample.empty_world)) + 5.
Proof.
  apply (get_liked_songs_needs_an_empty_page Cases.endless Sample.downloader
           (Spotify Sample.CLIENT_ID Sample.CLIENT_SECRET DEFAULT_REDIRECT_URI
              (u "user-library-read")) 5 Sample.empty_world).
  - reflexivity.
  - intros offset. exists Sample.track_item, []. reflexivity.
Defined.

(** ** The counters *)

Lemma startswith_sep (needle a b : str) (c : char) :
  ~ In c needle -> startswith needle (a ++ c :: b) = startswith needle a.
Proof.
  revert a; induction needle as [|d needle IH]; intros a Hc; [reflexivity|].
  destruct a as [|x a]; cbn [app startswith].
  - destruct (N.eqb_spec d c) as [->|_]; [|reflexivity].
    exfalso. apply Hc. left. reflexivity.
  - rewrite IH; [reflexivity|]. intros H. apply Hc. right. exact H.
Qed.

Lemma contains_sep (needle a b : str) (c : char) :
  needle <> [] -> ~ In c needle ->
  contains needle (a ++ c :: b) = contains needle a || contains needle b.
Proof.
  intros Hne Hc. induction a as [|x a IH].
  - cbn [app]. destruct needle as [|d needle]; [contradiction|].
    pose proof (startswith_sep (d :: needle) [] b c Hc) as H0. cbn [app] in H0.
    cbn [contains]. rewrite H0. reflexivity.
  - change ((x :: a) ++ c :: b) with (x :: (a ++ c :: b)).
    pose proof (startswith_sep needle (x :: a) b c Hc) as H0.
    change ((x :: a) ++ c :: b) with (x :: (a ++ c :: b)) in H0.
    cbn [contains]. rewrite IH, H0. apply orb_assoc.
Qed.

Lemma contains_app_r (needle a b : str) :
  contains needle a = true -> contains needle (a ++ b) = true.
Proof.
  induction a as [|x a IH]; intros H.
  - apply contains_startswith. destruct needle; [reflexivity | discriminate H].
  - cbn [contains] in H. apply orb_true_iff in H. destruct H as [H|H].
    + apply contains_startswith, startswith_app_r, H.
    + change ((x :: a) ++ b) with (x :: (a ++ b)). cbn [contains].
      rewrite (IH H). apply orb_true_r.
Qed.

Lemma contains_cons_other (d c : char) (needle hay : str) :
  N.eqb d c = false -> contains (d :: needle) (c :: hay) = contains (d :: needle) hay.
Proof. intros H. cbn [contains startswith]. rewrite H. reflexivity. Qed.

Ltac absent_char :=
  let H := fresh in
  intros H; cbv in H; repeat (destruct H as [H|H]; [discriminate H|]); exact H.

Ltac spell s := let t := eval cbv in s in change s with t.

Lemma downloaded_message_word (q : str) :
  contains (u "Downloaded") (downloaded_message q) = true.
Proof.
  unfold downloaded_message.
  apply (contains_app_l _ (CHECK_MARK ++ u " ") (u "Downloaded: " ++ q)).
  apply contains_startswith. apply (startswith_app_r (u "Downloaded") (u "Downloaded: ")).
  reflexivity.
Qed.

Lemma skipped_message_words (q : str) :
  contains (u "Downloaded") (skipped_message q) = contains (u "Downloaded") q
  /\ contains (u "Skipped") (skipped_message q) = true.
Proof.
  unfold skipped_message. split.
  - change (NEXT_TRACK ++ u "  Skipped (already exists): " ++ q)
      with ((NEXT_TRACK ++ u "  Skipped (already exists): ") ++ q).
    spell (NEXT_TRACK ++ u "  Skipped (already exists): ").
    change (u "Downloaded") with (68%N :: u "ownloaded").
    cbn [app]. rewrite !contains_cons_other by reflexivity. reflexivity.
  - apply (contains_app_l _ (NEXT_TRACK ++ u "  ") (u "Skipped (already exists): " ++ q)).
    apply contains_startswith.
    apply (startswith_app_r (u "Skipped") (u "Skipped (already exists): ")).
    reflexivity.
Qed.

Lemma not_found_message_words (q : str) :
  contains (u "Downloaded") (not_found_message q) = contains (u "Downloaded") q
  /\ contains (u "Skipped") (not_found_message q) = contains (u "Skipped") q.
Proof.
  unfold not_found_message.
  change (CROSS_MARK ++ u " Not found: " ++ q)
    with ((CROSS_MARK ++ u " Not found: ") ++ q).
  spell (CROSS_MARK ++ u " Not found: ").
  change (u "Downloaded") with (68%N :: u "ownloaded").
  change (u "Skipped") with (83%N :: u "kipped").
  cbn [app]. rewrite !contains_cons_other by reflexivity. split; reflexivity.
Qed.

Lemma error_message_words (q : str) (e : exn) :
  contains (u "Downloaded") (error_message q e)
  = contains (u "Downloaded") q || contains (u "Downloaded") (str_of_exn e)
  /\ contains (u "Skipped") (error_message q e)
     = contains (u "Skipped") q || contains (u "Skipped") (str_of_exn e).
Proof.
  unfold error_message.
  change (CROSS_MARK ++ u " Error downloading " ++ q ++ u ": " ++ str_of_exn e)
    with ((CROSS_MARK ++ u " Error downloading ")
          ++ (q ++ 58%N :: 32%N :: str_of_exn e)).
  spell (CROSS_MARK ++ u " Error downloading ").
  change (u "Downloaded") with (68%N :: u "ownloaded").
  change (u "Skipped") with (83%N :: u "kipped").
  cbn [app]. rewrite !contains_cons_other by reflexivity.
  rewrite !contains_sep; try discriminate; try absent_char.
  rewrite !contains_cons_other by reflexivity. split; reflexivity.
Qed.

(** X12.  The counters follow the outcomes when neither the query nor the
    text of an error holds one of the two words the loop looks for: for a
    track whose query contains neither [Downloaded] nor [Skipped], the
    downloaded message counts as a download, the skipped message as
    skipped, and the not-found message and every error message whose
    error text contains neither word count as failed. *)
Theorem counters_follow_outcomes :
  forall (song : song_info) (c : counters),
    contains (u "Downloaded") (query_of song) = false ->
    contains (u "Skipped") (query_of song) = false ->
    count c (downloaded_message (query_of song)) = one_more_downloaded c
    /\ count c (skipped_message (query_of song)) = one_more_skipped c
    /\ count c (not_found_message (query_of song)) = one_more_failed c
    /\ forall e,
         contains (u "Downloaded") (str_of_exn e) = false ->
         contains (u "Skipped") (str_of_exn e) = false ->
         count c (error_message (query_of song) e) = one_more_failed c.
Proof.
  intros song c HD HS. split; [|split; [|split]].
  - unfold count. rewrite downloaded_message_word. reflexivity.
  - unfold count. destruct (skipped_message_words (query_of song)) as [-> ->].
    rewrite HD. reflexivity.
  - unfold count. destruct (not_found_message_words (query_of song)) as [-> ->].
    rewrite HD, HS. reflexivity.
  - intros e HDe HSe. unfold count.
    destruct (error_message_words (query_of song) e) as [-> ->].
    rewrite HD, HS, HDe, HSe. reflexivity.
Qed.

(** The track of the scenario and an error of the network. *)
Lemma counters_follow_outcomes_witness :
  count no_counts (downloaded_message (query_of Sample.track))
  = one_more_downloaded no_counts
  /\ count no_counts (skipped_message (query_of Sample.track))
     = one_more_skipped no_counts
  /\ count no_counts (not_found_message (query_of Sample.track))
     = one_more_failed no_counts
  /\ forall e,
       contains (u "Downloaded") (str_of_exn e) = false ->
       contains (u "Skipped") (str_of_exn e) = false ->
       count no_counts (error_message (query_of Sample.track) e)
       = one_more_failed no_counts.
Proof.
  apply (counters_follow_outcomes Sample.track no_counts); reflexivity.
Defined.

(** X13.  The counters are chosen by searching the whole message, which
    ends with the query: for a track whose artist or title holds the word
    [Downloaded], every outcome, also skipped, not found and error, is
    counted as a download. *)
Theorem title_with_the_word_counts_as_download :
  forall (song : song_info) (c : counters) (msg : str),
    contains (u "Downloaded") (query_of song) = true ->
    outcome_of song (Ok msg) ->
    count c msg = one_more_downloaded c.
Proof.
  intros song c msg HD Hout. unfold count.
  replace (contains (u "Downloaded") msg) with true; [reflexivity|].
  symmetry. inversion Hout; subst.
  - apply (contains_app_l _ (NEXT_TRACK ++ u "  Skipped (already exists): ")) in HD.
    rewrite <- !app_assoc in HD. exact HD.
  - apply (contains_app_l _ (CHECK_MARK ++ u " Downloaded: ")) in HD.
    rewrite <- !app_assoc in HD. exact HD.
  - apply (contains_app_l _ (CROSS_MARK ++ u " Not found: ")) in HD.
    rewrite <- !app_assoc in HD. exact HD.
  - unfold error_message.
    apply (contains_app_l _ (CROSS_MARK ++ u " Error downloading ")).
    apply contains_app_r. exact HD.
Qed.

(** A track with the title [Downloaded], found in the folder. *)
Lemma title_with_the_word_counts_as_download_witness :
  count no_counts (skipped_message (u "Band - Downloaded"))
  = one_more_downloaded no_counts.
Proof.
  apply (title_with_the_word_counts_as_download
           {| name := u "Downloaded"; artist := u "Band"; album := u "X";
              duration_ms := 200000; popularity := 50 |}
           no_counts (skipped_message (u "Band - Downloaded"))).
  - reflexivity.
  - exact (outcome_skipped
             {| name := u "Downloaded"; artist := u "Band"; album := u "X";
                duration_ms := 200000; popularity := 50 |}).
Defined.

(** ** The coordinator, further *)

Lemma run_schedule_idle {T R : Type} (sched : list nat) (w : world) :
  Pool.run_schedule sched (Pool.submit_all (T := T) (R := R) 0 []) w
  = (Pool.submit_all 0 [], w).
Proof.
  induction sched as [|i sched IH]; [reflexivity|].
  cbn [Pool.run_schedule]. unfold Pool.worker_step at 1.
  cbn [Pool.submit_all Pool.running firstn nth_error].
  destruct i; exact IH.
Qed.

Lemma execute_nothing {T R : Type} (max_workers : nat) (sched : list nat) (w : world) :
  Pool.execute (T := T) (R := R) max_workers sched [] w = ([], w).
Proof.
  unfold Pool.execute.
  replace (Pool.submit_all (T := T) (R := R) max_workers [])
    with (Pool.submit_all (T := T) (R := R) 0 [])
    by (destruct max_workers; reflexivity).
  rewrite run_schedule_idle. reflexivity.
Qed.

Lemma as_completed_nil {A : Type} (order : list nat) :
  Pool.as_completed order (@nil A) = [].
Proof.
  induction order as [|i order IH]; [reflexivity|].
  cbn [Pool.as_completed]. destruct i; exact IH.
Qed.

(** X14.  With an empty list of songs [download_all_songs] starts no
    task: for every positive number of workers and every schedule it
    prints the three header lines and the summary with all counters at
    zero, and leaves the folder as it was. *)
Theorem download_all_songs_nothing_to_do :
  forall (E : env) (sched : schedule) (self : SpotifyDownloader) (workers : nat)
         (w : world),
    download_all_songs E sched self [] (S workers) w
    = (Some (Ok no_counts),
       {| fs := fs w;
          trace := trace w
            ++ map EPrint (header_lines E self 0 ++ summary_lines E self no_counts) |}).
Proof.
  intros E sched self workers w. unfold download_all_songs.
  rewrite !bind_print. unfold bind at 1.
  change (submitted E self []) with (@nil (song_info * task str)).
  rewrite (execute_nothing (T := song_info) (R := result str)), as_completed_nil.
  cbn [process_completed]. rewrite bind_ret.
  unfold bind at 1. rewrite print_all_run. unfold ret.
  unfold add_event. cbn [fs trace]. rewrite map_app, <- !app_assoc. reflexivity.
Qed.


Section FolderGrowth.

Variable E : env.
Variable self : SpotifyDownloader.
Variable songs : list song_info.







End FolderGrowth.


(** ** What is printed *)

Lemma holding_all (completed : list (song_info * result str)) :
  Forall (fun tr => outcome_of (fst tr) (snd tr)) completed ->
  exists l, completed = map holding l
            /\ Forall (fun sm => outcome_of (fst sm) (Ok (snd sm))) l.
Proof.
  induction 1 as [|[song r] completed Hout _ (l & -> & Hl)].
  - exists []. split; [reflexivity | constructor].
  - destruct (outcome_of_message song r Hout) as [msg ->].
    exists ((song, msg) :: l). split; [reflexivity|]. constructor; assumption.
Qed.

Lemma process_completed_holding (l : list (song_info * str)) :
  forall c w,
    process_completed (map holding l) c w
    = (Some (Ok (fold_left count (map snd l) c)),
       {| fs := fs w; trace := trace w ++ concat (map report (map snd l)) |}).
Proof.
  induction l as [|[song msg] l IH]; intros c w; cbn [map process_completed holding fst snd].
  - unfold ret. cbn [concat fold_left]. rewrite app_nil_r, world_eta. reflexivity.
  - unfold bind at 1. rewrite bind_print, bind_emit, IH.
    unfold add_event. cbn [fs trace fold_left concat report].
    rewrite <- !app_assoc. reflexivity.
Qed.

Lemma filter_chatter_prints (lines : list str) :
  filter is_chatter (map EPrint lines) = map EPrint lines.
Proof. induction lines as [|l lines IH]; [reflexivity|]. simpl. rewrite IH. reflexivity. Qed.

Lemma filter_chatter_reports (msgs : list str) :
  filter is_chatter (concat (map report msgs)) = concat (map report msgs).
Proof. induction msgs as [|m msgs IH]; [reflexivity|]. simpl. rewrite IH. reflexivity. Qed.

Lemma filter_chatter_tasks (events : list event) :
  forallb is_per_track events = true -> filter is_chatter events = [].
Proof.
  induction events as [|e events IH]; [reflexivity|]. simpl.
  intros H. apply andb_true_iff in H. destruct H as [He H].
  rewrite (IH H). destruct e; try discriminate He; reflexivity.
Qed.

(** X16.  Every outcome is reported on its own.  When no listing of the
    download folder fails, then under every schedule what
    [download_all_songs] prints and the pauses it makes are, in this
    order: the three header lines; for each submitted song exactly one
    line, which is one of the four messages of that song, followed by a
    pause of half a second; and the summary, whose counters are those
    the loop has counted from these lines. *)
Theorem every_outcome_is_reported :
  forall (E : env) (sched : schedule) (self : SpotifyDownloader)
         (songs : list song_info) (workers : nat) (w : world),
    no_listing_error E songs ->
    exists (completed : list (song_info * str)) (new : list event),
      Permutation (map fst completed) songs
      /\ Forall (fun sm => outcome_of (fst sm) (Ok (snd sm))) completed
      /\ trace (snd (download_all_songs E sched self songs (S workers) w))
         = trace w ++ new
      /\ filter is_chatter new
         = map EPrint (header_lines E self (length songs))
           ++ concat (map report (map snd completed))
           ++ map EPrint
                (summary_lines E self (fold_left count (map snd completed) no_counts)).
Proof.
  intros E sched self songs workers w Hno. unfold download_all_songs.
  rewrite !bind_print. unfold bind at 1.
  set (w1 := add_event _ (add_event _ (add_event _ w))).
  destruct (execute_outcomes E self (S workers) (interleaving sched) songs w1 Hno)
    as [Hout Hext].
  pose proof (execute_tags _ _ (S workers) (interleaving sched)
                (submitted E self songs) w1) as Hperm.
  rewrite submitted_tags in Hperm.
  destruct (Pool.execute (S workers) (interleaving sched) (submitted E self songs) w1)
    as [done w2]. cbn [fst snd] in Hout, Hext, Hperm.
  pose proof (as_completed_perm (yield_order sched) done) as Hyield.
  assert (Hout' : Forall (fun tr => outcome_of (fst tr) (snd tr))
                         (Pool.as_completed (yield_order sched) done)).
  { apply (Permutation_Forall (Permutation_sym Hyield)). exact Hout. }
  destruct (holding_all _ Hout') as (l & Hl & Hmsgs).
  rewrite Hl in *. unfold bind at 1. rewrite process_completed_holding.
  unfold bind at 1. rewrite print_all_run. unfold ret. cbn [snd trace fs].
  destruct Hext as [_ (tasks & Htrace & Htasks)].
  exists l, (map EPrint (header_lines E self (length songs)) ++ tasks
             ++ concat (map report (map snd l))
             ++ map EPrint (summary_lines E self (fold_left count (map snd l) no_counts))).
  split; [|split; [|split]].
  - apply perm_trans with (map fst done); [|exact Hperm].
    replace (map fst l) with (map fst (map holding l))
      by (rewrite map_map; reflexivity).
    apply Permutation_map, Hyield.
  - exact Hmsgs.
  - rewrite Htrace. unfold w1, add_event. cbn [trace header_lines map].
    rewrite <- !app_assoc. reflexivity.
  - rewrite !filter_app, filter_chatter_prints, filter_chatter_reports,
      filter_chatter_prints, (filter_chatter_tasks tasks Htasks).
    reflexivity.
Qed.

(** The track of the scenario and its sequel, two workers taking turns. *)
Lemma every_outcome_is_reported_witness :
  exists (completed : list (song_info * str)) (new : list event),
    Permutation (map fst completed) [Sample.track; Cases.sequel]
    /\ Forall (fun sm => outcome_of (fst sm) (Ok (snd sm))) completed
    /\ trace (snd (download_all_songs (Sample.working []) Sample.taking_turns
                     Sample.downloader [Sample.track; Cases.sequel] 2
                     Sample.empty_world))
       = trace Sample.empty_world ++ new
    /\ filter is_chatter new
       = map EPrint (header_lines (Sample.working []) Sample.downloader
                       (length [Sample.track; Cases.sequel]))
         ++ concat (map report (map snd completed))
         ++ map EPrint
              (summary_lines (Sample.working []) Sample.downloader
                 (fold_left count (map snd completed) no_counts)).
Proof.
  apply (every_outcome_is_reported (Sample.working []) Sample.taking_turns
           Sample.downloader [Sample.track; Cases.sequel] 1 Sample.empty_world).
  intros song _. reflexivity.
Defined.
